(** * tiedot query processor (db/query.go): shallow embedding and properties

    The query processor evaluates a JSON-decoded query expression against a
    collection and collects document IDs in a result set.  This development
    embeds [db/query.go] function by function and proves properties of the
    embedding.

    Conventions of the embedding:
    - Go's [int] is the 64-bit signed integer; it is a [Z] and every
      arithmetic result that the code stores in an [int] goes through [wrap].
    - [interface{}] values produced by [encoding/json] are the inductive
      [JSON]; a JSON number is a [float64], here a [spec_float].
    - The result set [*map[int]struct{}] is a [gset Z] passed in and returned.
      Every map object created by the code ([subResult], [intersection],
      [complement]) has exactly one live reference at any time, so the content
      of [*result] is all that can be observed and explicit state passing
      loses nothing.
    - Reads of the collection (index tables, documents, the advisory log) are
      recorded as a list of [Event]s returned next to the result set.
    - A function returns a [Run]: the outcome (nil error, an [Error], or a
      runtime panic), the content of [*result] at that point, and the events.
    - Recursion on sub-queries and the two integer loops of [IntRange] are
      bounded by a [fuel] argument; [None] means the fuel ran out. *)

From Stdlib Require Import SpecFloat Ascii.
From stdpp Require Import gmap strings list fin_maps pretty numbers sets.

Local Open Scope Z_scope.
Local Set Warnings "-register-all,-clear-no-such-hyp".

(** ** Machine integers *)

Module Int.

Definition min_int : Z := - 2 ^ 63.
Definition max_int : Z := 2 ^ 63 - 1.

(** Two's-complement wrap-around of a 64-bit signed integer. *)
Definition wrap (z : Z) : Z := (z + 2 ^ 63) mod 2 ^ 64 - 2 ^ 63.

Definition in_range (z : Z) : Prop := min_int <= z <= max_int.

(** Go's [int(f)] for a [float64]: the fraction is discarded (truncation
    towards zero).  A value that does not fit is implementation specific in
    Go; the amd64 conversion instruction yields the minimum integer there, and
    also for infinities and NaN. *)
Definition of_float (f : spec_float) : Z :=
  match f with
  | S754_zero _ => 0
  | S754_infinity _ => min_int
  | S754_nan => min_int
  | S754_finite s m e =>
      let mag := if 0 <=? e then Z.pos m * 2 ^ e else Z.pos m / 2 ^ (- e) in
      let t := if s then - mag else mag in
      if (min_int <=? t) && (t <=? max_int) then t else min_int
  end.

(** The [float64] that [encoding/json] produces for a small integer
    literal (exact for magnitudes below 2^53). *)
Definition to_float (z : Z) : spec_float :=
  match z with
  | Z0 => S754_zero false
  | Zpos p => S754_finite false p 0
  | Zneg p => S754_finite true p 0
  end.

End Int.

(** ** JSON values, as decoded into [interface{}] *)

Inductive JSON : Type :=
  | JNull
  | JBool (b : bool)
  | JNumber (f : spec_float)
  | JString (s : string)
  | JArray (a : list JSON)
  | JObject (o : gmap string JSON).

(** ** Errors of the query processor (the package-level [Error] values) *)

Inductive Error : Type :=
  | ErrorMissingLookUp
  | ErrorExpectingLookup (given : JSON)
  | ErrorExpectingNumber (given : JSON)
  | ErrorNeedIndex (path : string + list string) (query : gmap string JSON)
  | ErrorExpectingPath (given : JSON)
  | ErrorExpectingPathIn (given : JSON)
  | ErrorExpectingSubQuery (given : JSON)
  | ErrorMissingPath
  | ErrorExpectingInt (name : string) (given : Z)
  | ErrorMissing (name : string)
  | ErrorInvalidPKID (s : string)
  | ErrorNoOP (query : gmap string JSON).

Inductive Outcome : Type :=
  | OK
  | Fail (e : Error)
  | Panic (why : string).

(** ** The collection, as far as the query processor reads it *)

(** A hash table of one index in one partition ([*HashTable]); the table code
    is outside this file, so its two read operations are fields. *)
Record HashTable : Type := mkHashTable {
  Get : Z -> Z -> list Z;                (* ht.Get(key, limit) *)
  GetPartition : Z -> Z -> list Z        (* values of ht.GetPartition(partNum, partSize) *)
}.

Record DB : Type := mkDB {
  numParts : Z
}.

Record Col : Type := mkCol {
  db : DB;
  indexPaths : gset string;              (* keys of src.indexPaths *)
  hts : list (gmap string HashTable);    (* src.hts[part][indexKey] *)
  read : Z -> option JSON;               (* src.read(id, false): None is an error *)
  forEachDoc : list Z;                   (* IDs that src.forEachDoc visits *)
  approxDocCount : Z                     (* src.approxDocCount(false) *)
}.

(** Functions and constants of the package and of Go's library that the query
    processor calls. *)
Class Externals : Type := {
  Sprint : JSON -> string;               (* fmt.Sprint on a decoded value *)
  StrHash : string -> Z;                 (* StrHash *)
  GetIn : JSON -> list string -> list JSON;  (* GetIn(doc, path) *)
  INDEX_PATH_SEP : string
}.

(** ** Observable reads *)

Inductive Event : Type :=
  | EvSchemaRLock
  | EvSchemaRUnlock
  | EvForEachDoc
  | EvRead (id : Z)
  | EvGet (part : Z) (index : string) (key limit : Z)
  | EvGetPartition (part : Z) (index : string) (partNum partSize : Z)
  | EvCritNoRepeat.

Record Run : Type := mkRun {
  outcome : Outcome;
  final : gset Z;                       (* content of *result at the return *)
  trace : list Event
}.

Definition emit (t : list Event) (r : Run) : Run :=
  mkRun (outcome r) (final r) (t ++ trace r).

(** ** The operators *)

Section Query.
Context {ext : Externals}.

(** [strings.Join]. *)
Definition Join (elems : list string) (sep : string) : string :=
  String.concat sep elems.

(** "Figure out result number limit": the block that [Lookup],
    [PathExistence] and [IntRange] each contain. *)
Definition limitOf (expr : gmap string JSON) : JSON + Z :=
  match expr !! "limit" with
  | Some limit =>
      match limit with
      | JNumber floatLimit => inr (Int.of_float floatLimit)
      | _ => inl limit
      end
  | None => inr 0
  end.

(** [src.hts[num][path]]: an index out of range or a nil table makes the
    following [ht.Lock.RLock()] panic. *)
Definition table (src : Col) (num : Z) (path : string) : option HashTable :=
  if num <? 0 then None
  else hts src !! Z.to_nat num ≫= λ m, m !! path.

(** *** Lookup *)

(** The inner loop over [GetIn(doc, vecPath)]. *)
Definition matchValues (lookupStrValue : string) (match_ : Z)
    (vs : list JSON) (result : gset Z) : gset Z :=
  foldl (λ res v, if decide (Sprint v = lookupStrValue)
                  then {[match_]} ∪ res else res) result vs.

(** The loop over [vals]: "Filter result to avoid hash collision". *)
Fixpoint filterMatches (src : Col) (vecPath : list string)
    (lookupStrValue : string) (vals : list Z) (result : gset Z) : Run :=
  match vals with
  | [] => mkRun OK result []
  | match_ :: rest =>
      emit [EvRead match_]
        (match read src match_ with
         | Some doc =>
             filterMatches src vecPath lookupStrValue rest
               (matchValues lookupStrValue match_ (GetIn doc vecPath) result)
         | None => filterMatches src vecPath lookupStrValue rest result
         end)
  end.

(** The validation at the head of [Lookup]: the path and the limit. *)
Definition lookupArgs (expr : gmap string JSON) : Error + (list string * Z) :=
  match expr !! "in" with
  | None => inl ErrorMissingLookUp
  | Some path =>
      match path with
      | JArray vecPathInterface =>
          let vecPath := Sprint <$> vecPathInterface in
          match limitOf expr with
          | inl limit => inl (ErrorExpectingNumber limit)
          | inr intLimit => inr (vecPath, intLimit)
          end
      | _ => inl (ErrorExpectingLookup path)
      end
  end.

Definition Lookup (lookupValue : JSON) (expr : gmap string JSON)
    (src : Col) (result : gset Z) : Run :=
  match lookupArgs expr with
  | inl e => mkRun (Fail e) result []
  | inr (vecPath, intLimit) =>
      let lookupStrValue := Sprint lookupValue in
      let lookupValueHash := StrHash lookupStrValue in
      let scanPath := Join vecPath INDEX_PATH_SEP in
      if decide (scanPath ∈ indexPaths src) then
        if numParts (db src) =? 0 then
          mkRun (Panic "integer divide by zero") result []
        else
          let num := Z.rem lookupValueHash (numParts (db src)) in
          match table src num scanPath with
          | None => mkRun (Panic "invalid table") result []
          | Some ht =>
              let vals := Get ht lookupValueHash intLimit in
              emit [EvGet num scanPath lookupValueHash intLimit]
                (filterMatches src vecPath lookupStrValue vals result)
          end
      else mkRun (Fail (ErrorNeedIndex (inl scanPath) expr)) result []
  end.

(** *** PathExistence *)

(** State of the nested scan loops of [PathExistence]: [stop] is set when the
    function has executed its [return nil] inside the innermost loop. *)
Record Pass : Type := mkPass {
  stop : bool;
  count : Z;
  found : gset Z;
  reads : list Event
}.

(** [for _, id := range ids]. *)
Fixpoint addIDs (intLimit : Z) (ids : list Z) (counter : Z)
    (result : gset Z) : Pass :=
  match ids with
  | [] => mkPass false counter result []
  | id :: rest =>
      let result := {[id]} ∪ result in
      let counter := Int.wrap (counter + 1) in
      if counter =? intLimit then mkPass true counter result []
      else addIDs intLimit rest counter result
  end.

(** [for i := 0; i < partDiv; i++], over the remaining values [slices] of [i]. *)
Fixpoint scanSlices (ht : HashTable) (iteratePart : Z) (jointPath : string)
    (intLimit partDiv : Z) (slices : list Z) (counter : Z) (result : gset Z)
    : Pass :=
  match slices with
  | [] => mkPass false counter result []
  | i :: rest =>
      let ev := EvGetPartition iteratePart jointPath i partDiv in
      let p := addIDs intLimit (GetPartition ht i partDiv) counter result in
      if stop p then mkPass true (count p) (found p) [ev]
      else
        let q := scanSlices ht iteratePart jointPath intLimit partDiv rest
                   (count p) (found p) in
        mkPass (stop q) (count q) (found q) (ev :: reads q)
  end.

(** [for iteratePart := 0; iteratePart < src.db.numParts; iteratePart++],
    over the remaining values [parts] of [iteratePart]. *)
Fixpoint scanParts (src : Col) (jointPath : string) (intLimit partDiv : Z)
    (parts : list Z) (counter : Z) (result : gset Z) : Run :=
  match parts with
  | [] => mkRun OK result []
  | iteratePart :: rest =>
      match table src iteratePart jointPath with
      | None => mkRun (Panic "invalid table") result []
      | Some ht =>
          let p := scanSlices ht iteratePart jointPath intLimit partDiv
                     (seqZ 0 partDiv) counter result in
          if stop p then mkRun OK (found p) (reads p)
          else emit (reads p)
                 (scanParts src jointPath intLimit partDiv rest
                    (count p) (found p))
      end
  end.

(** "collect approx. 4k document IDs in each iteration". *)
Definition partDivOf (src : Col) : Z :=
  let partDiv :=
    Int.wrap (Int.wrap (approxDocCount src ÷ numParts (db src)) ÷ 4000) in
  if partDiv =? 0 then Int.wrap (partDiv + 1) else partDiv.

(** The validation at the head of [PathExistence]. *)
Definition pathArgs (hasPath : JSON) (expr : gmap string JSON)
    : Error + (list string * Z) :=
  match hasPath with
  | JArray vecPathInterface =>
      let vecPath := Sprint <$> vecPathInterface in
      match limitOf expr with
      | inl limit => inl (ErrorExpectingNumber limit)
      | inr intLimit => inr (vecPath, intLimit)
      end
  | _ => inl (ErrorExpectingPath hasPath)
  end.

Definition PathExistence (hasPath : JSON) (expr : gmap string JSON)
    (src : Col) (result : gset Z) : Run :=
  match pathArgs hasPath expr with
  | inl e => mkRun (Fail e) result []
  | inr (vecPath, intLimit) =>
      let jointPath := Join vecPath INDEX_PATH_SEP in
      if decide (jointPath ∈ indexPaths src) then
        if numParts (db src) =? 0 then
          mkRun (Panic "integer divide by zero") result []
        else
          scanParts src jointPath intLimit (partDivOf src)
            (seqZ 0 (numParts (db src))) 0 result
      else mkRun (Fail (ErrorNeedIndex (inr vecPath) expr)) result []
  end.

(** *** Union, Intersect, Complement

    The three set operators call [evalQuery] on their sub-queries; they are
    written over the evaluator [ev] of sub-queries and closed below. *)

Section SetOperators.
Variable ev : JSON -> Col -> gset Z -> option Run.

Fixpoint EvalUnion_ (exprs : list JSON) (src : Col) (result : gset Z)
    : option Run :=
  match exprs with
  | [] => Some (mkRun OK result [])
  | subExpr :: rest =>
      r ← ev subExpr src result;
      match outcome r with
      | OK => emit (trace r) <$> EvalUnion_ rest src (final r)
      | _ => Some r
      end
  end.

(** The loop of [Intersect]; every sub-query is evaluated into a fresh
    [subResult], and a failing one returns with [*result] as it stands. *)
Fixpoint intersectLoop (subExprVecs : list JSON) (src : Col) (first : bool)
    (result : gset Z) : option Run :=
  match subExprVecs with
  | [] => Some (mkRun OK result [])
  | subExpr :: rest =>
      r ← ev subExpr src ∅;
      match outcome r with
      | OK =>
          let subResult := final r in
          emit (trace r) <$>
            (if first then intersectLoop rest src false subResult
             else intersectLoop rest src false
                    (filter (λ k, k ∈ result) subResult))
      | o => Some (mkRun o result (trace r))
      end
  end.

Definition Intersect_ (subExprs : JSON) (src : Col) (result : gset Z)
    : option Run :=
  match subExprs with
  | JArray subExprVecs => intersectLoop subExprVecs src true result
  | _ => Some (mkRun (Fail (ErrorExpectingSubQuery subExprs)) result [])
  end.

(** The loop of [Complement]: keys of [subResult] not in [*result], then
    keys of [*result] not in [subResult]. *)
Fixpoint complementLoop (subExprVecs : list JSON) (src : Col)
    (result : gset Z) : option Run :=
  match subExprVecs with
  | [] => Some (mkRun OK result [])
  | subExpr :: rest =>
      r ← ev subExpr src ∅;
      match outcome r with
      | OK =>
          let subResult := final r in
          let complement :=
            filter (λ k, k ∉ result) subResult
            ∪ filter (λ k, k ∉ subResult) result in
          emit (trace r) <$> complementLoop rest src complement
      | o => Some (mkRun o result (trace r))
      end
  end.

Definition Complement_ (subExprs : JSON) (src : Col) (result : gset Z)
    : option Run :=
  match subExprs with
  | JArray subExprVecs => complementLoop subExprVecs src result
  | _ => Some (mkRun (Fail (ErrorExpectingSubQuery subExprs)) result [])
  end.

End SetOperators.

(** *** IntRange *)

(** [col.hashScan(idxName, key, limit)]: the partition and the values; [None]
    is a panic (division by zero, no such partition, nil table). *)
Definition hashScan (col : Col) (idxName : string) (key limit : Z)
    : option (Z * list Z) :=
  if numParts (db col) =? 0 then None
  else
    let num := Z.rem key (numParts (db col)) in
    ht ← table col num idxName;
    Some (num, Get ht key limit).

(** [for _, docID := range vals], with its [break]. *)
Fixpoint collect (intLimit : Z) (vals : list Z) (counter : Z)
    (result : gset Z) : Z * gset Z :=
  match vals with
  | [] => (counter, result)
  | docID :: rest =>
      if (0 <? intLimit) && (counter =? intLimit) then (counter, result)
      else collect intLimit rest (Int.wrap (counter + 1)) ({[docID]} ∪ result)
  end.

(** One iteration of either scan loop, for the integer [lookupValue]; [inl] is
    a panic inside [hashScan]. *)
Definition probe (src : Col) (htPath : string) (intLimit lookupValue : Z)
    (counter : Z) (result : gset Z) : Run + (Event * Z * gset Z) :=
  let lookupStrValue := pretty lookupValue in
  let hashValue := StrHash lookupStrValue in
  match hashScan src htPath hashValue intLimit with
  | None => inl (mkRun (Panic "invalid table") result [])
  | Some (num, vals) =>
      let '(counter, result) := collect intLimit vals counter result in
      inr (EvGet num htPath hashValue intLimit, counter, result)
  end.

(** "Forward scan - from low value to high value":
    [for lookupValue := from; lookupValue <= to; lookupValue++]. *)
Fixpoint forwardScan (fuel : nat) (src : Col) (htPath : string)
    (intLimit lookupValue to counter : Z) (result : gset Z) : option Run :=
  match fuel with
  | O => None
  | S fuel =>
      if lookupValue <=? to then
        match probe src htPath intLimit lookupValue counter result with
        | inl r => Some r
        | inr (ev, counter, result) =>
            emit [ev] <$>
              forwardScan fuel src htPath intLimit
                (Int.wrap (lookupValue + 1)) to counter result
        end
      else Some (mkRun OK result [])
  end.

(** "Backward scan - from high value to low value":
    [for lookupValue := from; lookupValue >= to; lookupValue--]. *)
Fixpoint backwardScan (fuel : nat) (src : Col) (htPath : string)
    (intLimit lookupValue to counter : Z) (result : gset Z) : option Run :=
  match fuel with
  | O => None
  | S fuel =>
      if to <=? lookupValue then
        match probe src htPath intLimit lookupValue counter result with
        | inl r => Some r
        | inr (ev, counter, result) =>
            emit [ev] <$>
              backwardScan fuel src htPath intLimit
                (Int.wrap (lookupValue - 1)) to counter result
        end
      else Some (mkRun OK result [])
  end.

(** The bound of an integer range, [int(floatTo)]. *)
Definition boundOf (name : string) (bound : JSON) : Error + Z :=
  match bound with
  | JNumber floatTo => inr (Int.of_float floatTo)
  | _ => inl (ErrorExpectingInt name 0)
  end.

(** The validation at the head of [IntRange]: path, limit, from, to. *)
Definition rangeArgs (intFrom : JSON) (expr : gmap string JSON)
    : Error + (list string * Z * Z * Z) :=
  match expr !! "in" with
  | None => inl ErrorMissingPath
  | Some path =>
      match path with
      | JArray vecPathInterface =>
          let vecPath := Sprint <$> vecPathInterface in
          match limitOf expr with
          | inl limit => inl (ErrorExpectingNumber limit)
          | inr intLimit =>
              match boundOf "int-from" intFrom with
              | inl e => inl e
              | inr from =>
                  match expr !! "int-to" with
                  | Some intTo =>
                      match boundOf "int-to" intTo with
                      | inl e => inl e
                      | inr to => inr (vecPath, intLimit, from, to)
                      end
                  | None =>
                      match expr !! "int to" with
                      | Some intTo =>
                          match boundOf "int-to" intTo with
                          | inl e => inl e
                          | inr to => inr (vecPath, intLimit, from, to)
                          end
                      | None => inl (ErrorMissing "int-to")
                      end
                  end
              end
          end
      | _ => inl (ErrorExpectingPathIn path)
      end
  end.

(** The condition of the advisory about more than 1000 values. *)
Definition tooWide (from to : Z) : bool :=
  (from <? to) && (1000 <? Int.wrap (to - from))
  || (to <? from) && (1000 <? Int.wrap (from - to)).

Definition IntRange (fuel : nat) (intFrom : JSON) (expr : gmap string JSON)
    (src : Col) (result : gset Z) : option Run :=
  match rangeArgs intFrom expr with
  | inl e => Some (mkRun (Fail e) result [])
  | inr (vecPath, intLimit, from, to) =>
      let advisory := if tooWide from to then [EvCritNoRepeat] else [] in
      let htPath := Join vecPath "," in
      if decide (htPath ∈ indexPaths src) then
        emit advisory <$>
          (if from <? to
           then forwardScan fuel src htPath intLimit from to 0 result
           else backwardScan fuel src htPath intLimit from to 0 result)
      else Some (mkRun (Fail (ErrorNeedIndex (inr vecPath) expr)) result advisory)
  end.

(** *** Literals *)

(** "Put all document IDs into result." *)
Definition EvalAllIDs (src : Col) (result : gset Z) : Run :=
  mkRun OK (foldl (λ res id, {[id]} ∪ res) result (forEachDoc src))
    [EvForEachDoc].

Definition digit (c : ascii) : option Z :=
  let n := Z.of_nat (nat_of_ascii c) in
  if (48 <=? n) && (n <=? 57) then Some (n - 48) else None.

Fixpoint digits (s : string) (acc : Z) : option Z :=
  match s with
  | EmptyString => Some acc
  | String c s => d ← digit c; digits s (10 * acc + d)
  end.

(** [strconv.ParseInt(s, 10, 64)]; [None] is a syntax or range error. *)
Definition ParseInt (s : string) : option Z :=
  match s with
  | EmptyString => None
  | String c rest =>
      let '(neg, s) :=
        if decide (c = "+"%char) then (false, rest)
        else if decide (c = "-"%char) then (true, rest)
        else (false, s) in
      match s with
      | EmptyString => None
      | _ =>
          un ← digits s 0;
          if neg then (if un <=? 2 ^ 63 then Some (- un) else None)
          else (if un <? 2 ^ 63 then Some un else None)
      end
  end.

(** *** The evaluator *)

(** The deferred release of the schema lock taken by the outermost call. *)
Definition withSchemaLock (placeSchemaLock : bool) (r : Run) : Run :=
  if placeSchemaLock
  then mkRun (outcome r) (final r) (EvSchemaRLock :: trace r ++ [EvSchemaRUnlock])
  else r.

Fixpoint evalQuery (fuel : nat) (q : JSON) (src : Col) (result : gset Z)
    (placeSchemaLock : bool) {struct fuel} : option Run :=
  match fuel with
  | O => None
  | S fuel =>
      let sub := λ q src result, evalQuery fuel q src result false in
      withSchemaLock placeSchemaLock <$>
        match q with
        | JArray expr => EvalUnion_ sub expr src result
        | JString expr =>
            if decide (expr = "all") then Some (EvalAllIDs src result)
            else
              match ParseInt expr with
              | None => Some (mkRun (Fail (ErrorInvalidPKID expr)) result [])
              | Some docID => Some (mkRun OK ({[docID]} ∪ result) [])
              end
        | JObject expr =>
            match expr !! "eq" with
            | Some lookupValue => Some (Lookup lookupValue expr src result)
            | None =>
            match expr !! "has" with
            | Some hasPath => Some (PathExistence hasPath expr src result)
            | None =>
            match expr !! "n" with
            | Some subExprs => Intersect_ sub subExprs src result
            | None =>
            match expr !! "c" with
            | Some subExprs => Complement_ sub subExprs src result
            | None =>
            match expr !! "int-from" with
            | Some intFrom => IntRange fuel intFrom expr src result
            | None =>
            match expr !! "int from" with
            | Some intFrom => IntRange fuel intFrom expr src result
            | None => Some (mkRun (Fail (ErrorNoOP expr)) result [])
            end end end end end end
        | _ => Some (mkRun OK result [])
        end
  end.

(** The evaluator of sub-queries at recursion depth [fuel], and the three set
    operators over it. *)
Definition subQuery (fuel : nat) (q : JSON) (src : Col) (result : gset Z)
    : option Run :=
  evalQuery fuel q src result false.

Definition EvalUnion (fuel : nat) := EvalUnion_ (subQuery fuel).
Definition Intersect (fuel : nat) := Intersect_ (subQuery fuel).
Definition Complement (fuel : nat) := Complement_ (subQuery fuel).

(** "Main entrance to query processor". *)
Definition EvalQuery (fuel : nat) (q : JSON) (src : Col) (result : gset Z)
    : option Run :=
  evalQuery fuel q src result true.

End Query.

(** ** Vocabulary of the statements

    Definitions that the properties below are stated with; none of them is
    part of the query processor. *)

(** Symmetric difference of two result sets. *)
Definition symdiff (X Y : gset Z) : gset Z := (X ∖ Y) ∪ (Y ∖ X).

(** Queries that are neither a vector, a string nor a map. *)
Definition scalar (q : JSON) : Prop :=
  match q with
  | JArray _ | JString _ | JObject _ => False
  | _ => True
  end.

(** The collection with another document reader; everything else is kept. *)
Definition withRead (src : Col) (read' : Z -> option JSON) : Col :=
  mkCol (db src) (indexPaths src) (hts src) read' (forEachDoc src)
    (approxDocCount src).

(** A run on the running set [R], given the run on the empty set: the
    outcome and the reads are the same and [R] is joined to the result. *)
Definition frame (R : gset Z) (r : Run) : Run :=
  mkRun (outcome r) (R ∪ final r) (trace r).

Definition framePass (R : gset Z) (p : Pass) : Pass :=
  mkPass (stop p) (count p) (R ∪ found p) (reads p).

(** Queries that only add to the running result set: literals, the three
    index predicates, clauses without an operation, and vectors of such.
    The test on a map follows the dispatch order of [evalQuery]: [eq] and
    [has] win over [n] and [c]. *)
Fixpoint accumulating (q : JSON) : bool :=
  match q with
  | JArray exprs => forallb accumulating exprs
  | JObject expr =>
      match expr !! "eq", expr !! "has", expr !! "n", expr !! "c" with
      | Some _, _, _, _ => true
      | None, Some _, _, _ => true
      | None, None, None, None => true
      | _, _, _, _ => false
      end
  | _ => true
  end.

(** Queries that are not evaluated through sub-queries. *)
Definition leaf (q : JSON) : bool :=
  match q with
  | JArray _ => false
  | _ => accumulating q
  end.

Section Contributions.
Variable ev : JSON -> Col -> gset Z -> option Run.

(** The union of what the sub-queries contribute when each is run on an
    empty set; defined when all of them succeed. *)
Fixpoint contributions (l : list JSON) (src : Col) : option (gset Z) :=
  match l with
  | [] => Some ∅
  | q :: l =>
      r ← ev q src ∅;
      match outcome r with
      | OK => (λ D, final r ∪ D) <$> contributions l src
      | _ => None
      end
  end.

End Contributions.

Section SubResults.
Variable ev : JSON -> Col -> gset Z -> option Run.

(** The runs of the sub-queries [l], each on a fresh empty result set, as
    [Intersect] and [Complement] evaluate them; defined when all of them
    return nil. *)
Fixpoint subResults (l : list JSON) (src : Col) : option (list Run) :=
  match l with
  | [] => Some []
  | q :: l =>
      r ← ev q src ∅;
      match outcome r with
      | OK => (λ rs, r :: rs) <$> subResults l src
      | _ => None
      end
  end.

End SubResults.

(** The flag [first] and the running set of [Intersect] after the
    successful sub-results [rs]. *)
Fixpoint meets (first : bool) (R : gset Z) (rs : list Run)
    : bool * gset Z :=
  match rs with
  | [] => (first, R)
  | r :: rs =>
      meets false
        (if first then final r else filter (λ k, k ∈ R) (final r)) rs
  end.

(** The running set of [Complement] after the successful sub-results
    [rs]. *)
Definition xors (R : gset Z) (rs : list Run) : gset Z :=
  foldl (λ acc r, symdiff acc (final r)) R rs.

(** The document IDs that the index on [jointPath] holds, in the order in
    which [PathExistence] reads them: partition by partition, slice by slice.
    An ID occurs once for every key under which the index holds it. *)
Definition sliceEntries (ht : HashTable) (partDiv : Z) : list Z :=
  seqZ 0 partDiv ≫= λ i, GetPartition ht i partDiv.

Definition partEntries (src : Col) (jointPath : string) (parts : list Z)
    : list Z :=
  parts ≫= λ p,
    match table src p jointPath with
    | Some ht => sliceEntries ht (partDivOf src)
    | None => []
    end.

Definition indexEntries (src : Col) (jointPath : string) : list Z :=
  partEntries src jointPath (seqZ 0 (numParts (db src))).

(** The table reads of a full scan by [PathExistence] over the partitions
    [parts], each with the IDs that it returns. *)
Definition indexSlices (src : Col) (jointPath : string) (parts : list Z)
    : list (Event * list Z) :=
  parts ≫= λ p,
    match table src p jointPath with
    | Some ht =>
        (λ i, (EvGetPartition p jointPath i (partDivOf src),
               GetPartition ht i (partDivOf src)))
        <$> seqZ 0 (partDivOf src)
    | None => []
    end.

(** The table reads of a scan that ends on having seen [n] entries: every
    slice up to and including the one that holds the [n]-th entry, and all
    slices when there are fewer entries. *)
Fixpoint slicesRead (n : nat) (slices : list (Event * list Z))
    : list Event :=
  match slices with
  | [] => []
  | (ev, ids) :: rest =>
      ev :: (if decide (n ≤ length ids)%nat then []
             else slicesRead (n - length ids) rest)
  end.

(** The two events of the schema lock. *)
Definition lockEvent (e : Event) : bool :=
  match e with
  | EvSchemaRLock | EvSchemaRUnlock => true
  | _ => false
  end.

(** The lookups of a key in an index table. *)
Definition getEvent (e : Event) : bool :=
  match e with
  | EvGet _ _ _ _ => true
  | _ => false
  end.

(** The keys looked up in index tables, in order. *)
Definition probed (t : list Event) : list Z :=
  omap (λ e, match e with EvGet _ _ key _ => Some key | _ => None end) t.

(** The integers of the range, in the order in which they are visited. *)
Definition rangeValues (from to : Z) : list Z :=
  if from <? to then seqZ from (to - from + 1)
  else reverse (seqZ to (from - to + 1)).

Section ScanOfValues.
Context {ext : Externals}.

(** The iterations of a scan loop for the integers [values], in order. *)
Fixpoint scanValues (src : Col) (htPath : string) (intLimit : Z)
    (values : list Z) (counter : Z) (result : gset Z) : Run :=
  match values with
  | [] => mkRun OK result []
  | lookupValue :: rest =>
      match probe src htPath intLimit lookupValue counter result with
      | inl r => r
      | inr (ev, counter, result) =>
          emit [ev] (scanValues src htPath intLimit rest counter result)
      end
  end.

(** The IDs that the index holds for the integers [values]. *)
Definition rangeMatches (src : Col) (htPath : string) (intLimit : Z)
    (values : list Z) : list Z :=
  values ≫= λ v,
    match hashScan src htPath (StrHash (pretty v)) intLimit with
    | Some (_, vals) => vals
    | None => []
    end.

(** The collision filter of [Lookup] on the candidate [id]: the document
    can be read and has a value at the path whose string form is the one
    looked for. *)
Definition verified (src : Col) (vecPath : list string)
    (lookupStrValue : string) (id : Z) : bool :=
  match read src id with
  | Some doc =>
      existsb (λ v, bool_decide (Sprint v = lookupStrValue))
        (GetIn doc vecPath)
  | None => false
  end.

(** The scan loop of the range clause ends: the clause does not pass the
    validation, or its bound [to] is below the maximum integer for a
    forward scan and above the minimum integer for a backward scan. *)
Definition rangeEnds (intFrom : JSON) (expr : gmap string JSON) : bool :=
  match rangeArgs intFrom expr with
  | inl _ => true
  | inr (_, _, from, to) =>
      if from <? to then to <? Int.max_int else Int.min_int <? to
  end.

(** The query has nesting depth at most [depth], and the scan loop of every
    range clause that the evaluator can reach in it ends.  The test on a
    map follows the dispatch order of [evalQuery]. *)
Fixpoint rangesEnd (depth : nat) (q : JSON) : bool :=
  match depth with
  | O => false
  | S depth =>
      let vector (subExprs : JSON) :=
        match subExprs with
        | JArray l => forallb (rangesEnd depth) l
        | _ => true
        end in
      match q with
      | JArray exprs => forallb (rangesEnd depth) exprs
      | JObject expr =>
          match expr !! "eq" with
          | Some _ => true
          | None =>
          match expr !! "has" with
          | Some _ => true
          | None =>
          match expr !! "n" with
          | Some subExprs => vector subExprs
          | None =>
          match expr !! "c" with
          | Some subExprs => vector subExprs
          | None =>
          match expr !! "int-from" with
          | Some intFrom => rangeEnds intFrom expr
          | None =>
          match expr !! "int from" with
          | Some intFrom => rangeEnds intFrom expr
          | None => true
          end end end end end end
      | _ => true
      end
  end.

End ScanOfValues.

(** ** A sample collection

    The instances below are used where a statement is checked on a concrete
    input: three documents [{"a":1}], [{"a":2}], [{"a":5}] with IDs 1, 2, 3,
    one partition, and an index on the path [a]. *)

Module Sample.

Definition num (z : Z) : JSON := JNumber (Int.to_float z).

Definition sprint (v : JSON) : string :=
  match v with
  | JString s => s
  | JNumber f => pretty (Int.of_float f)
  | JBool true => "true"
  | JBool false => "false"
  | _ => "<nil>"
  end.

(** A string hash in the style of sdbm, made non-negative. *)
Definition strHash (s : string) : Z :=
  let fix go (s : string) (hash : Z) : Z :=
    match s with
    | EmptyString => hash
    | String c s =>
        go s (Int.wrap (Z.of_nat (nat_of_ascii c)
                        + Int.wrap (Z.shiftl hash 6)
                        + Int.wrap (Z.shiftl hash 16) - hash))
    end in
  let hash := go s 0 in
  if hash <? 0 then Int.wrap (- hash) else hash.

Fixpoint getIn (doc : JSON) (path : list string) : list JSON :=
  match path with
  | [] => match doc with JArray a => a | _ => [doc] end
  | seg :: rest =>
      match doc with
      | JObject o =>
          match o !! seg with
          | Some v => getIn v rest
          | None => []
          end
      | _ => []
      end
  end.

#[export] Instance externals : Externals := {|
  Sprint := sprint;
  StrHash := strHash;
  GetIn := getIn;
  INDEX_PATH_SEP := "!"
|}.

(** A table holding the (hash key, document ID) pairs [entries]; [Get]
    honours a positive limit, and the whole table is its first slice. *)
Definition tableOf (entries : list (Z * Z)) : HashTable :=
  mkHashTable
    (λ key limit,
       let vals := (filter (λ e, e.1 = key) entries).*2 in
       if 0 <? limit then take (Z.to_nat limit) vals else vals)
    (λ partNum partSize, if partNum =? 0 then entries.*2 else []).

Definition doc (v : Z) : JSON := JObject {[ "a" := num v ]}.

Definition docs : gmap Z JSON := {[ 1 := doc 1; 2 := doc 2; 3 := doc 5 ]}.

Definition col : Col :=
  mkCol (mkDB 1) {[ "a" ]}
    [ {[ "a" := tableOf [(strHash "1", 1); (strHash "2", 2); (strHash "5", 3)] ]} ]
    (λ id, docs !! id) [1; 2; 3] 3.

(** The same collection after document 1 became [{"a":[1,2]}]: the index on
    [a] then holds document 1 under two keys. *)
Definition colMulti : Col :=
  mkCol (mkDB 1) {[ "a" ]}
    [ {[ "a" := tableOf [(strHash "1", 1); (strHash "2", 1); (strHash "2", 2);
                         (strHash "5", 3)] ]} ]
    (λ id, (<[ 1 := JObject {[ "a" := JArray [num 1; num 2] ]} ]> docs) !! id)
    [1; 2; 3] 3.

End Sample.

(** The [float64] of the JSON number [-9223372036854775808], the minimum
    integer: sign, 53-bit mantissa 2^52 and exponent 11. *)
Definition minIntFloat : spec_float :=
  S754_finite true 4503599627370496 11.

(** The query [{"int-from": -9223372036854775808,
    "int-to": -9223372036854775808, "in": ["a"]}]. *)
Definition minIntRange : gmap string JSON :=
  {[ "int-from" := JNumber minIntFloat; "int-to" := JNumber minIntFloat;
     "in" := JArray [JString "a"] ]}.

(** * Properties *)

(** ** Bookkeeping of runs *)

Lemma emit_outcome t r : outcome (emit t r) = outcome r.
Proof. done. Qed.

Lemma emit_final t r : final (emit t r) = final r.
Proof. done. Qed.

Lemma emit_emit t1 t2 (o : option Run) :
  emit t1 <$> (emit t2 <$> o) = emit (t1 ++ t2) <$> o.
Proof.
  destruct o as [r|]; [|done]. simpl. unfold emit. simpl.
  by rewrite (assoc_L (++)).
Qed.

Lemma emit_nil (o : option Run) : emit [] <$> o = o.
Proof. destruct o as [[]|]; done. Qed.

(** ** Complement is a chained symmetric difference *)

Lemma complement_symdiff (R S : gset Z) :
  filter (λ k, k ∉ R) S ∪ filter (λ k, k ∉ S) R = symdiff R S.
Proof. unfold symdiff. set_solver. Qed.

Lemma symdiff_empty_l (S : gset Z) : symdiff ∅ S = S.
Proof. unfold symdiff. set_solver. Qed.

Lemma symdiff_cancel (R S : gset Z) : symdiff (symdiff R S) S = R.
Proof.
  unfold symdiff. apply set_eq. intros k.
  destruct (decide (k ∈ R)), (decide (k ∈ S)); set_solver.
Qed.

Section Complement.
Context {ext : Externals}.
Variable ev : JSON -> Col -> gset Z -> option Run.

Lemma complementLoop_snoc l A src R r rA :
  complementLoop ev l src R = Some r → outcome r = OK →
  ev A src ∅ = Some rA → outcome rA = OK →
  ∃ r', complementLoop ev (l ++ [A]) src R = Some r'
        ∧ outcome r' = OK ∧ final r' = symdiff (final r) (final rA).
Proof.
  revert R r. induction l as [|B l IH]; intros R r Hl Hr HA HrA; simpl in *.
  - simplify_eq. simpl. rewrite HA. simpl. rewrite HrA. simpl.
    eexists. split; [done|]. split; [done|]. simpl.
    apply complement_symdiff.
  - destruct (ev B src ∅) as [rB|] eqn:HB; simpl in *; [|done].
    destruct (outcome rB) eqn:HoB; simplify_eq; simpl in *; try done.
    destruct (complementLoop ev l src _) as [r0|] eqn:Hl0; [|done].
    simpl in Hl. injection Hl as <-. rewrite emit_outcome in Hr.
    destruct (IH _ _ Hl0 Hr HA HrA) as (r' & -> & Ho & Hf).
    simpl. eexists. split; [done|]. by rewrite emit_outcome, !emit_final.
Qed.

End Complement.

Section ComplementChain.
Context {ext : Externals}.

(** C1: [Complement] replaces the running result set, at each sub-query, by
    its symmetric difference with the fresh result of that sub-query.
    Appending a sub-query [A] to the list XORs the result of [A] into the
    outcome of the shorter list; [Complement [A]] on an empty running set is
    the result of [A]; [Complement [A, A]] gives the running set back. *)
Theorem Complement_chained_symdiff fuel (A : JSON) (src : Col) (rA : Run) :
  subQuery fuel A src ∅ = Some rA → outcome rA = OK →
  (∀ l R r,
     Complement fuel (JArray l) src R = Some r → outcome r = OK →
     ∃ r', Complement fuel (JArray (l ++ [A])) src R = Some r'
           ∧ outcome r' = OK ∧ final r' = symdiff (final r) (final rA))
  ∧ (∃ r', Complement fuel (JArray [A]) src ∅ = Some r'
           ∧ outcome r' = OK ∧ final r' = final rA)
  ∧ (∀ R, ∃ r', Complement fuel (JArray [A; A]) src R = Some r'
           ∧ outcome r' = OK ∧ final r' = R).
Proof.
  intros HA HrA. unfold Complement, Complement_.
  assert (Hstep : ∀ l R r,
    complementLoop (subQuery fuel) l src R = Some r → outcome r = OK →
    ∃ r', complementLoop (subQuery fuel) (l ++ [A]) src R = Some r'
          ∧ outcome r' = OK ∧ final r' = symdiff (final r) (final rA)).
  { intros l R r Hl Hr. by eapply complementLoop_snoc. }
  split; [exact Hstep|]. split.
  - destruct (Hstep [] ∅ (mkRun OK ∅ []) eq_refl eq_refl) as (r' & Hr' & Ho & Hf).
    exists r'. split; [exact Hr'|]. split; [done|].
    by rewrite Hf, symdiff_empty_l.
  - intros R.
    destruct (Hstep [] R (mkRun OK R []) eq_refl eq_refl) as (r1 & Hr1 & Ho1 & Hf1).
    destruct (Hstep [A] R r1 Hr1 Ho1) as (r2 & Hr2 & Ho2 & Hf2).
    exists r2. split; [exact Hr2|]. split; [done|].
    rewrite Hf2, Hf1. simpl. apply symdiff_cancel.
Qed.

End ComplementChain.

(** The sub-query ["2"] in the sample collection: [Complement ["2"]] yields
    {2} and [Complement ["2", "2"]] restores the running set. *)
Lemma Complement_chained_symdiff_witness :
  (∃ r', Complement (ext:=Sample.externals) 1 (JArray [JString "2"]) Sample.col ∅ = Some r'
         ∧ outcome r' = OK ∧ final r' = {[2]})
  ∧ (∃ r', Complement (ext:=Sample.externals) 1 (JArray [JString "2"; JString "2"])
             Sample.col {[1; 2]} = Some r'
           ∧ outcome r' = OK ∧ final r' = {[1; 2]}).
Proof.
  destruct (Complement_chained_symdiff (ext:=Sample.externals) 1 (JString "2")
              Sample.col (mkRun OK {[2]} []) eq_refl eq_refl) as (_ & H1 & H2).
  split; [exact H1 | exact (H2 {[1; 2]})].
Defined.

(** ** Intersect on an empty list of sub-queries *)

Section IntersectEmpty.
Context {ext : Externals}.

(** C2 (as the code has it): [Intersect] on an empty vector of sub-queries
    succeeds and leaves the running result set as it is; the result is
    therefore empty when the running set is empty, as it is for a top-level
    query, and also through the dispatch of [evalQuery] on [{"n": []}]. *)
Theorem Intersect_empty_unchanged fuel (src : Col) (R : gset Z) :
  Intersect fuel (JArray []) src R = Some (mkRun OK R [])
  ∧ Intersect fuel (JArray []) src ∅ = Some (mkRun OK ∅ [])
  ∧ evalQuery (S fuel) (JObject {[ "n" := JArray [] ]}) src R false
    = Some (mkRun OK R []).
Proof. done. Qed.

End IntersectEmpty.

(** C2 fails as stated: with document 7 already in the running result set,
    [Intersect] on the empty vector succeeds and the result set is not
    empty. *)
Lemma Intersect_empty_counterexample :
  ∃ r, Intersect (ext:=Sample.externals) 1 (JArray []) Sample.col {[7]} = Some r
       ∧ outcome r = OK ∧ final r = {[7]} ∧ final r ≠ ∅.
Proof.
  eexists. split; [reflexivity|]. split; [done|]. split; [done|].
  simpl. intros Heq. assert (Hin : (7:Z) ∈ (∅ : gset Z)) by (rewrite <- Heq; set_solver).
  set_solver.
Qed.

(** ** Queries that are neither a vector, a string nor a map *)

Section Scalars.
Context {ext : Externals}.

(** C10: a query that is neither a vector, a string nor a map (a number, a
    boolean, null) matches no case of the type switch: [evalQuery] returns
    nil, not the no-operation error, and the result set is unchanged.  This
    holds for inner calls and for the outermost call, which only adds the
    schema lock. *)
Theorem evalQuery_scalar_noop fuel (q : JSON) (src : Col) (R : gset Z) :
  scalar q →
  evalQuery (S fuel) q src R false = Some (mkRun OK R [])
  ∧ EvalQuery (S fuel) q src R
    = Some (mkRun OK R [EvSchemaRLock; EvSchemaRUnlock]).
Proof. by destruct q. Qed.

End Scalars.

Lemma evalQuery_scalar_noop_witness :
  evalQuery (ext:=Sample.externals) 1 (Sample.num 42) Sample.col {[1]} false
    = Some (mkRun OK {[1]} [])
  ∧ EvalQuery (ext:=Sample.externals) 1 (Sample.num 42) Sample.col {[1]}
    = Some (mkRun OK {[1]} [EvSchemaRLock; EvSchemaRUnlock]).
Proof. apply (evalQuery_scalar_noop (ext:=Sample.externals) 0). exact I. Defined.

(** ** Lookup filters hash collisions *)

Section LookupFilter.
Context {ext : Externals}.

Lemma matchValues_elem str (m : Z) vs (R : gset Z) (id : Z) :
  id ∈ matchValues str m vs R →
  id ∈ R ∨ (id = m ∧ ∃ v, v ∈ vs ∧ Sprint v = str).
Proof.
  unfold matchValues. revert R. induction vs as [|v vs IH]; intros R; simpl.
  - by left.
  - intros Hin. destruct (IH _ Hin) as [HR|(-> & w & Hw & Hs)].
    + case_decide as Hv.
      * apply elem_of_union in HR as [->%elem_of_singleton|HR]; [|by left].
        right. split; [done|]. exists v. split; [left|done].
      * by left.
    + right. split; [done|]. exists w. split; [by right|done].
Qed.

Lemma filterMatches_elem src vecPath str vals (R : gset Z) (id : Z) :
  id ∈ final (filterMatches src vecPath str vals R) →
  id ∈ R ∨ (id ∈ vals ∧ ∃ doc v, read src id = Some doc
                          ∧ v ∈ GetIn doc vecPath ∧ Sprint v = str).
Proof.
  revert R. induction vals as [|m vals IH]; intros R; simpl.
  - by left.
  - destruct (read src m) as [doc|] eqn:Hread; simpl; intros Hin.
    + destruct (IH _ Hin) as [HR|(Hv & Hd)].
      * destruct (matchValues_elem _ _ _ _ _ HR) as [?|(-> & v & Hv & Hs)];
          [by left|].
        right. split; [left|]. by exists doc, v.
      * right. split; [by right|done].
    + destruct (IH _ Hin) as [?|(Hv & Hd)]; [by left|].
      right. split; [by right|done].
Qed.

Lemma filterMatches_outcome src vecPath str vals (R : gset Z) :
  outcome (filterMatches src vecPath str vals R) = OK.
Proof.
  revert R. induction vals as [|m vals IH]; intros R; simpl; [done|].
  destruct (read src m); simpl; apply IH.
Qed.

(** C5: an ID that [Lookup] adds to the result set is the ID of a document
    that could be read again and that has, at the lookup path, a value whose
    string form is the string form of the target.  A candidate whose document
    cannot be read is therefore not added, and the outcome of [Lookup] does
    not depend on the document reader at all: a failed read is never an
    error of the query. *)
Theorem Lookup_collision_filtered (lookupValue : JSON)
    (expr : gmap string JSON) (src : Col) (R : gset Z) (id : Z) :
  id ∈ final (Lookup lookupValue expr src R) → id ∉ R →
  (∃ vecPath intLimit doc v,
      lookupArgs expr = inr (vecPath, intLimit)
      ∧ read src id = Some doc
      ∧ v ∈ GetIn doc vecPath
      ∧ Sprint v = Sprint lookupValue)
  ∧ read src id ≠ None
  ∧ ∀ read', outcome (Lookup lookupValue expr (withRead src read') R)
             = outcome (Lookup lookupValue expr src R).
Proof.
  intros Hin Hnot.
  assert (Hout : ∀ read', outcome (Lookup lookupValue expr (withRead src read') R)
                          = outcome (Lookup lookupValue expr src R)).
  { intros read'. unfold Lookup.
    destruct (lookupArgs expr) as [e|[vecPath intLimit]]; [done|].
    simpl. case_decide; [|done].
    destruct (numParts (db src) =? 0); [done|].
    unfold table; simpl. destruct (_ <? 0); [done|].
    destruct (hts src !! _ ≫= _); simpl; [|done].
    by rewrite !filterMatches_outcome. }
  assert (Hex : ∃ vecPath intLimit doc v,
      lookupArgs expr = inr (vecPath, intLimit)
      ∧ read src id = Some doc
      ∧ v ∈ GetIn doc vecPath
      ∧ Sprint v = Sprint lookupValue).
  { unfold Lookup in Hin.
    destruct (lookupArgs expr) as [e|[vecPath intLimit]]; [done|].
    case_decide; [|done].
    destruct (numParts (db src) =? 0); [done|].
    destruct (table src _ _) as [ht|]; [|done].
    rewrite emit_final in Hin.
    apply filterMatches_elem in Hin as [?|(_ & doc & v & ? & ? & ?)]; [done|].
    by exists vecPath, intLimit, doc, v. }
  split; [exact Hex|]. split; [|exact Hout].
  destruct Hex as (? & ? & doc & ? & ? & -> & ?). done.
Qed.

End LookupFilter.

(** In the sample collection, [{"eq": 2, "in": ["a"]}] finds document 2. *)
Lemma Lookup_collision_filtered_witness :
  ∃ vecPath intLimit doc v,
    lookupArgs (ext:=Sample.externals)
      {[ "eq" := Sample.num 2; "in" := JArray [JString "a"] ]}
      = inr (vecPath, intLimit)
    ∧ read Sample.col 2 = Some doc
    ∧ v ∈ Sample.getIn doc vecPath
    ∧ Sample.sprint v = Sample.sprint (Sample.num 2).
Proof.
  refine (proj1 (Lookup_collision_filtered (ext:=Sample.externals)
            (Sample.num 2)
            {[ "eq" := Sample.num 2; "in" := JArray [JString "a"] ]}
            Sample.col ∅ 2 _ _)).
  - vm_compute. set_solver.
  - set_solver.
Defined.

(** ** Predicates on a path that is not indexed *)

Section NeedIndex.
Context {ext : Externals}.

(** A path of at most one segment has the same key whatever the separator
    it is joined with. *)
Lemma Join_short (elems : list string) (sep1 sep2 : string) :
  (length elems ≤ 1)%nat → Join elems sep1 = Join elems sep2.
Proof.
  destruct elems as [|a [|b elems]]; simpl; [done|done|lia].
Qed.

(** C9 (as the code has it): when the clause passes the checks that come
    before the index check (the path is a vector, [limit] is a number if
    present, and for [IntRange] both bounds are numbers) and the query's
    joined path key, the path joined with [INDEX_PATH_SEP], is not an indexed
    path, each of [Lookup], [PathExistence] and [IntRange] returns the
    need-index error, leaves the result set unchanged and reads no index
    table and no document.  For [IntRange] this is stated for a path of at
    most one segment; nothing is said here of [IntRange] on longer paths.
    [IntRange] has at that point already evaluated the condition of its
    advisory about wide ranges. *)
Theorem unindexed_path_rejected (expr : gmap string JSON) (src : Col)
    (R : gset Z) :
  (∀ lookupValue vecPath intLimit,
     lookupArgs expr = inr (vecPath, intLimit) →
     Join vecPath INDEX_PATH_SEP ∉ indexPaths src →
     Lookup lookupValue expr src R
     = mkRun (Fail (ErrorNeedIndex (inl (Join vecPath INDEX_PATH_SEP)) expr))
         R [])
  ∧ (∀ hasPath vecPath intLimit,
       pathArgs hasPath expr = inr (vecPath, intLimit) →
       Join vecPath INDEX_PATH_SEP ∉ indexPaths src →
       PathExistence hasPath expr src R
       = mkRun (Fail (ErrorNeedIndex (inr vecPath) expr)) R [])
  ∧ (∀ fuel intFrom vecPath intLimit from to,
       rangeArgs intFrom expr = inr (vecPath, intLimit, from, to) →
       (length vecPath ≤ 1)%nat →
       Join vecPath INDEX_PATH_SEP ∉ indexPaths src →
       IntRange fuel intFrom expr src R
       = Some (mkRun (Fail (ErrorNeedIndex (inr vecPath) expr)) R
                 (if tooWide from to then [EvCritNoRepeat] else []))).
Proof.
  split; [|split].
  - intros lookupValue vecPath intLimit Hargs Hkey. unfold Lookup.
    rewrite Hargs. by rewrite decide_False.
  - intros hasPath vecPath intLimit Hargs Hkey. unfold PathExistence.
    rewrite Hargs. by rewrite decide_False.
  - intros fuel intFrom vecPath intLimit from to Hargs Hlen Hkey.
    rewrite (Join_short vecPath INDEX_PATH_SEP ",") in Hkey by done.
    unfold IntRange. rewrite Hargs. by rewrite decide_False.
Qed.

End NeedIndex.

(** The path [b] is not indexed in the sample collection: the three
    predicates on it are rejected. *)
Lemma unindexed_path_rejected_witness :
  let expr : gmap string JSON :=
    {[ "in" := JArray [JString "b"]; "int-to" := Sample.num 3 ]} in
  Lookup (ext:=Sample.externals) (Sample.num 2) expr Sample.col {[9]}
  = mkRun (Fail (ErrorNeedIndex (inl "b") expr)) {[9]} []
  ∧ PathExistence (ext:=Sample.externals) (JArray [JString "b"]) expr
      Sample.col {[9]}
    = mkRun (Fail (ErrorNeedIndex (inr ["b"]) expr)) {[9]} []
  ∧ IntRange (ext:=Sample.externals) 0 (Sample.num 1) expr Sample.col {[9]}
    = Some (mkRun (Fail (ErrorNeedIndex (inr ["b"]) expr)) {[9]} []).
Proof.
  intros expr.
  destruct (unindexed_path_rejected (ext:=Sample.externals) expr Sample.col {[9]})
    as (HL & HP & HR).
  split; [|split].
  - apply (HL (Sample.num 2) ["b"] 0); [reflexivity|vm_compute; set_solver].
  - apply (HP (JArray [JString "b"]) ["b"] 0); [reflexivity|vm_compute; set_solver].
  - apply (HR 0%nat (Sample.num 1) ["b"] 0 1 3);
      [reflexivity|simpl; lia|vm_compute; set_solver].
Defined.

(** C9 fails as stated: the path [b] is not indexed, yet [Lookup] with a
    malformed [limit] reports the limit, not the missing index. *)
Lemma unindexed_path_counterexample :
  let expr : gmap string JSON :=
    {[ "in" := JArray [JString "b"]; "limit" := JString "x" ]} in
  (Join ["b"] (INDEX_PATH_SEP (Externals:=Sample.externals))
     ∉ indexPaths Sample.col)
  ∧ outcome (Lookup (ext:=Sample.externals) (Sample.num 2) expr Sample.col ∅)
    = Fail (ErrorExpectingNumber (JString "x"))
  ∧ ∀ path, outcome (Lookup (ext:=Sample.externals) (Sample.num 2) expr
                       Sample.col ∅)
            ≠ Fail (ErrorNeedIndex path expr).
Proof.
  intros expr. split; [vm_compute; set_solver|]. split; [reflexivity|].
  intros path. vm_compute. discriminate.
Qed.

(** ** Operators that only add to the running result set

    A literal and the three index predicates insert IDs into [*result] and
    read nothing from it.  Their run on a running set [R] is their run on the
    empty set with [R] joined to the result. *)

Lemma frame_emit R t r : frame R (emit t r) = emit t (frame R r).
Proof. done. Qed.

Lemma frame_frame R S r : frame R (frame S r) = frame (R ∪ S) r.
Proof. unfold frame; simpl. f_equal. set_solver. Qed.

Lemma frame_stay o (R : gset Z) t : mkRun o R t = frame R (mkRun o ∅ t).
Proof. unfold frame; simpl. f_equal. set_solver. Qed.

Lemma frame_fmap_emit R t (o : option Run) :
  frame R <$> (emit t <$> o) = emit t <$> (frame R <$> o).
Proof. by destruct o. Qed.

Lemma frame_fmap_frame R S (o : option Run) :
  frame R <$> (frame S <$> o) = frame (R ∪ S) <$> o.
Proof. destruct o; simpl; [|done]. by rewrite frame_frame. Qed.

Section Frames.
Context {ext : Externals}.

Lemma matchValues_frame str (m : Z) vs (R : gset Z) :
  matchValues str m vs R = R ∪ matchValues str m vs ∅.
Proof.
  unfold matchValues. revert R. induction vs as [|v vs IH]; intros R; simpl.
  - set_solver.
  - rewrite IH. rewrite (IH (if decide _ then _ else _)).
    case_decide; set_solver.
Qed.

Lemma filterMatches_frame src vecPath str vals (R : gset Z) :
  filterMatches src vecPath str vals R
  = frame R (filterMatches src vecPath str vals ∅).
Proof.
  revert R. induction vals as [|m vals IH]; intros R; simpl.
  - apply frame_stay.
  - rewrite frame_emit. f_equal. destruct (read src m) as [doc|].
    + rewrite IH. rewrite (IH (matchValues _ _ _ ∅)). rewrite frame_frame.
      f_equal. apply matchValues_frame.
    + apply IH.
Qed.

Lemma Lookup_frame lookupValue expr src (R : gset Z) :
  Lookup lookupValue expr src R = frame R (Lookup lookupValue expr src ∅).
Proof.
  unfold Lookup. destruct (lookupArgs expr) as [e|[vecPath intLimit]];
    [apply frame_stay|].
  simpl. case_decide; [|apply frame_stay].
  destruct (_ =? 0); [apply frame_stay|].
  destruct (table _ _ _); [|apply frame_stay].
  rewrite frame_emit. f_equal. apply filterMatches_frame.
Qed.

Lemma addIDs_frame intLimit ids c (R : gset Z) :
  addIDs intLimit ids c R = framePass R (addIDs intLimit ids c ∅).
Proof.
  revert c R. induction ids as [|id ids IH]; intros c R; simpl.
  - unfold framePass; simpl. f_equal. set_solver.
  - destruct (_ =? intLimit).
    + unfold framePass; simpl. f_equal. set_solver.
    + rewrite IH. rewrite (IH _ ({[id]} ∪ ∅)). unfold framePass; simpl.
      f_equal. set_solver.
Qed.

Lemma scanSlices_frame ht part jointPath intLimit partDiv slices c
    (R : gset Z) :
  scanSlices ht part jointPath intLimit partDiv slices c R
  = framePass R (scanSlices ht part jointPath intLimit partDiv slices c ∅).
Proof.
  revert c R. induction slices as [|i slices IH]; intros c R; simpl.
  - unfold framePass; simpl. f_equal. set_solver.
  - rewrite addIDs_frame. simpl.
    destruct (stop (addIDs _ _ c ∅)); [done|].
    rewrite IH.
    rewrite (IH _ (found (addIDs _ _ c ∅))). unfold framePass; simpl.
    f_equal. set_solver.
Qed.

Lemma scanParts_frame src jointPath intLimit partDiv parts c (R : gset Z) :
  scanParts src jointPath intLimit partDiv parts c R
  = frame R (scanParts src jointPath intLimit partDiv parts c ∅).
Proof.
  revert c R. induction parts as [|part parts IH]; intros c R; simpl.
  - apply frame_stay.
  - destruct (table _ _ _) as [ht|]; [|apply frame_stay].
    rewrite scanSlices_frame. simpl.
    destruct (stop (scanSlices _ _ _ _ _ _ c ∅)); [done|].
    rewrite frame_emit. f_equal. rewrite IH.
    rewrite (IH _ (found (scanSlices _ _ _ _ _ _ c ∅))).
    by rewrite frame_frame.
Qed.

Lemma PathExistence_frame hasPath expr src (R : gset Z) :
  PathExistence hasPath expr src R
  = frame R (PathExistence hasPath expr src ∅).
Proof.
  unfold PathExistence. destruct (pathArgs hasPath expr) as [e|[vecPath intLimit]];
    [apply frame_stay|].
  simpl. case_decide; [|apply frame_stay].
  destruct (_ =? 0); [apply frame_stay|].
  apply scanParts_frame.
Qed.

Lemma collect_frame intLimit vals c (R : gset Z) :
  collect intLimit vals c R
  = ((collect intLimit vals c ∅).1, R ∪ (collect intLimit vals c ∅).2).
Proof.
  revert c R. induction vals as [|docID vals IH]; intros c R; simpl.
  - f_equal. set_solver.
  - destruct (_ && _); simpl.
    + f_equal. set_solver.
    + rewrite IH. rewrite (IH _ ({[docID]} ∪ ∅)). simpl. f_equal. set_solver.
Qed.

Lemma forwardScan_frame fuel src htPath intLimit v to c (R : gset Z) :
  forwardScan fuel src htPath intLimit v to c R
  = frame R <$> forwardScan fuel src htPath intLimit v to c ∅.
Proof.
  revert v c R. induction fuel as [|fuel IH]; intros v c R; simpl; [done|].
  destruct (v <=? to); [|simpl; f_equal; apply frame_stay].
  unfold probe. destruct (hashScan _ _ _ _) as [[num vals]|];
    [|simpl; f_equal; apply frame_stay].
  rewrite collect_frame. destruct (collect intLimit vals c ∅) as [c' D]; simpl.
  rewrite IH. rewrite (IH _ _ D). rewrite frame_fmap_emit.
  by rewrite frame_fmap_frame.
Qed.

Lemma backwardScan_frame fuel src htPath intLimit v to c (R : gset Z) :
  backwardScan fuel src htPath intLimit v to c R
  = frame R <$> backwardScan fuel src htPath intLimit v to c ∅.
Proof.
  revert v c R. induction fuel as [|fuel IH]; intros v c R; simpl; [done|].
  destruct (to <=? v); [|simpl; f_equal; apply frame_stay].
  unfold probe. destruct (hashScan _ _ _ _) as [[num vals]|];
    [|simpl; f_equal; apply frame_stay].
  rewrite collect_frame. destruct (collect intLimit vals c ∅) as [c' D]; simpl.
  rewrite IH. rewrite (IH _ _ D). rewrite frame_fmap_emit.
  by rewrite frame_fmap_frame.
Qed.

Lemma IntRange_frame fuel intFrom expr src (R : gset Z) :
  IntRange fuel intFrom expr src R
  = frame R <$> IntRange fuel intFrom expr src ∅.
Proof.
  unfold IntRange.
  destruct (rangeArgs intFrom expr) as [e|[[[vecPath intLimit] from] to]];
    [simpl; f_equal; apply frame_stay|].
  simpl. case_decide; [|simpl; f_equal; apply frame_stay].
  rewrite frame_fmap_emit. f_equal.
  destruct (from <? to); [apply forwardScan_frame|apply backwardScan_frame].
Qed.

Lemma EvalAllIDs_frame src (R : gset Z) :
  EvalAllIDs src R = frame R (EvalAllIDs src ∅).
Proof.
  unfold EvalAllIDs, frame; simpl. f_equal.
  generalize (forEachDoc src). intros ids. revert R.
  induction ids as [|id ids IH]; intros R; simpl; [set_solver|].
  rewrite IH. rewrite (IH ({[id]} ∪ ∅)). set_solver.
Qed.

End Frames.

(** ** Union *)

Section UnionLoop.
Context {ext : Externals}.
Variable ev : JSON -> Col -> gset Z -> option Run.

Lemma EvalUnion_app l l' src R r :
  EvalUnion_ ev l src R = Some r → outcome r = OK →
  EvalUnion_ ev (l ++ l') src R
  = emit (trace r) <$> EvalUnion_ ev l' src (final r).
Proof.
  revert R r. induction l as [|q l IH]; intros R r Hl Hr; simpl in *.
  - simplify_eq. simpl. by rewrite emit_nil.
  - destruct (ev q src R) as [rq|]; simpl in *; [|done].
    destruct (outcome rq) eqn:Hq; simplify_eq; try congruence.
    destruct (EvalUnion_ ev l src (final rq)) as [r0|] eqn:Hl0; [|done].
    simpl in Hl. injection Hl as <-. rewrite emit_outcome in Hr.
    rewrite (IH _ _ Hl0 Hr). rewrite emit_emit. by rewrite emit_final.
Qed.

Lemma EvalUnion_frame l src R :
  (∀ q R, q ∈ l → ev q src R = frame R <$> ev q src ∅) →
  EvalUnion_ ev l src R = frame R <$> EvalUnion_ ev l src ∅.
Proof.
  revert R. induction l as [|q l IH]; intros R Hev; simpl.
  - f_equal. apply frame_stay.
  - rewrite (Hev q R) by left.
    destruct (ev q src ∅) as [rq|]; simpl; [|done].
    destruct (outcome rq); simpl; try done.
    rewrite IH by (intros; apply Hev; by right).
    rewrite (IH (final rq)) by (intros; apply Hev; by right).
    rewrite frame_fmap_emit. by rewrite frame_fmap_frame.
Qed.

Lemma EvalUnion_app_inv l l' src R r :
  EvalUnion_ ev (l ++ l') src R = Some r → outcome r = OK →
  ∃ r1 r2, EvalUnion_ ev l src R = Some r1 ∧ outcome r1 = OK
           ∧ EvalUnion_ ev l' src (final r1) = Some r2 ∧ outcome r2 = OK
           ∧ final r = final r2.
Proof.
  revert R r. induction l as [|q l IH]; intros R r Hl Hr; simpl in *.
  - exists (mkRun OK R []), r. by repeat split.
  - destruct (ev q src R) as [rq|]; simpl in *; [|done].
    destruct (outcome rq) eqn:Hq; simplify_eq; try congruence.
    destruct (EvalUnion_ ev (l ++ l') src (final rq)) as [r0|] eqn:Hl0; [|done].
    simpl in Hl. injection Hl as <-. rewrite emit_outcome in Hr.
    destruct (IH _ _ Hl0 Hr) as (r1 & r2 & -> & Ho1 & H2 & Ho2 & Hf).
    exists (emit (trace rq) r1), r2. simpl. by repeat split.
Qed.

Lemma contributions_Permutation l1 l2 src :
  Permutation l1 l2 → contributions ev l1 src = contributions ev l2 src.
Proof.
  induction 1 as [|q l1 l2 _ IH|q1 q2 l|l1 l2 l3 _ IH1 _ IH2]; simpl.
  - done.
  - by rewrite IH.
  - destruct (ev q1 src ∅) as [r1|], (ev q2 src ∅) as [r2|]; simpl;
      repeat case_match; simpl; try done.
    destruct (contributions ev l src); simpl; [|done]. f_equal. set_solver.
  - by rewrite IH1.
Qed.

Lemma EvalUnion_contributions l src R r :
  (∀ q R, q ∈ l → ev q src R = frame R <$> ev q src ∅) →
  EvalUnion_ ev l src R = Some r → outcome r = OK →
  ∃ D, contributions ev l src = Some D ∧ final r = R ∪ D.
Proof.
  revert R r. induction l as [|q l IH]; intros R r Hev Hl Hr; simpl in *.
  - simplify_eq. exists ∅. split; [done|]. simpl. set_solver.
  - rewrite (Hev q R) in Hl by left.
    destruct (ev q src ∅) as [rq|]; simpl in *; [|done].
    destruct (outcome rq) eqn:Hq; simplify_eq; try (simpl in *; congruence).
    destruct (EvalUnion_ ev l src _) as [r0|] eqn:Hl0; [|done].
    simpl in Hl. injection Hl as <-. rewrite emit_outcome in Hr.
    destruct (IH _ _ (λ q R Hq, Hev q R (list_elem_of_further _ _ _ Hq)) Hl0 Hr)
      as (D & -> & Hf).
    exists (final rq ∪ D). split; [done|]. rewrite emit_final, Hf. set_solver.
Qed.

Lemma contributions_EvalUnion l src R D :
  (∀ q R, q ∈ l → ev q src R = frame R <$> ev q src ∅) →
  contributions ev l src = Some D →
  ∃ r, EvalUnion_ ev l src R = Some r ∧ outcome r = OK ∧ final r = R ∪ D.
Proof.
  revert R D. induction l as [|q l IH]; intros R D Hev HD; simpl in *.
  - simplify_eq. eexists. split; [done|]. split; [done|]. simpl. set_solver.
  - rewrite (Hev q R) by left.
    destruct (ev q src ∅) as [rq|]; simpl in *; [|done].
    destruct (outcome rq) eqn:Hq; simplify_eq.
    destruct (contributions ev l src) as [D'|] eqn:HD'; simplify_eq. simpl.
    destruct (IH (R ∪ final rq) D'
                (λ q R Hq, Hev q R (list_elem_of_further _ _ _ Hq)) eq_refl)
      as (r & -> & Ho & Hf).
    eexists. split; [done|]. split; [done|]. rewrite emit_final, Hf.
    set_solver.
Qed.

End UnionLoop.

Section UnionProps.
Context {ext : Externals}.

Lemma withSchemaLock_false (o : option Run) : withSchemaLock false <$> o = o.
Proof. by destruct o. Qed.

Lemma subQuery_S fuel q src R :
  subQuery (S fuel) q src R
  = match q with
    | JArray expr => EvalUnion fuel expr src R
    | JString expr =>
        if decide (expr = "all") then Some (EvalAllIDs src R)
        else
          match ParseInt expr with
          | None => Some (mkRun (Fail (ErrorInvalidPKID expr)) R [])
          | Some docID => Some (mkRun OK ({[docID]} ∪ R) [])
          end
    | JObject expr =>
        match expr !! "eq" with
        | Some lookupValue => Some (Lookup lookupValue expr src R)
        | None =>
        match expr !! "has" with
        | Some hasPath => Some (PathExistence hasPath expr src R)
        | None =>
        match expr !! "n" with
        | Some subExprs => Intersect fuel subExprs src R
        | None =>
        match expr !! "c" with
        | Some subExprs => Complement fuel subExprs src R
        | None =>
        match expr !! "int-from" with
        | Some intFrom => IntRange fuel intFrom expr src R
        | None =>
        match expr !! "int from" with
        | Some intFrom => IntRange fuel intFrom expr src R
        | None => Some (mkRun (Fail (ErrorNoOP expr)) R [])
        end end end end end end
    | _ => Some (mkRun OK R [])
    end.
Proof. unfold subQuery. simpl. by rewrite withSchemaLock_false. Qed.

(** An accumulating query run on [R] is its run on the empty set, with [R]
    joined to the result. *)
Lemma subQuery_frame fuel q src R :
  accumulating q = true →
  subQuery fuel q src R = frame R <$> subQuery fuel q src ∅.
Proof.
  revert q R. induction fuel as [|fuel IH]; intros q R Hacc; [done|].
  rewrite !subQuery_S. destruct q as [| | |s|l|expr]; simpl in *;
    try (f_equal; apply frame_stay).
  - case_decide; simpl; [f_equal; apply EvalAllIDs_frame|].
    destruct (ParseInt s); simpl; f_equal; [|apply frame_stay].
    unfold frame; simpl. f_equal. set_solver.
  - apply EvalUnion_frame. intros q R' Hq. apply IH.
    rewrite forallb_forall in Hacc. apply Hacc. by apply list_elem_of_In.
  - destruct (expr !! "eq"); simpl; [f_equal; apply Lookup_frame|].
    destruct (expr !! "has"); simpl; [f_equal; apply PathExistence_frame|].
    destruct (expr !! "n"); [by destruct (expr !! "c")|].
    destruct (expr !! "c"); [done|].
    destruct (expr !! "int-from"); [apply IntRange_frame|].
    destruct (expr !! "int from"); [apply IntRange_frame|].
    simpl. f_equal. apply frame_stay.
Qed.

(** The scans of the index predicates end with nil or in a panic; the
    errors of these predicates come from their validation. *)
Lemma scanParts_not_Fail src jointPath intLimit partDiv parts c R e :
  outcome (scanParts src jointPath intLimit partDiv parts c R) ≠ Fail e.
Proof.
  revert c R. induction parts as [|part parts IH]; intros c R; simpl; [done|].
  destruct (table _ _ _); [|done]. destruct (stop _); [done|]. apply IH.
Qed.

Lemma forwardScan_not_Fail fuel src htPath intLimit v to c R r e :
  forwardScan fuel src htPath intLimit v to c R = Some r → outcome r ≠ Fail e.
Proof.
  revert v c R r. induction fuel as [|fuel IH]; intros v c R r; simpl; [done|].
  destruct (v <=? to); [|by intros [= <-]].
  unfold probe. destruct (hashScan _ _ _ _) as [[num vals]|]; [|by intros [= <-]].
  destruct (collect _ _ _ _) as [c' R'].
  destruct (forwardScan fuel _ _ _ _ _ _ _) as [r0|] eqn:Hr0; [|done].
  intros [= <-]. rewrite emit_outcome. by eapply IH.
Qed.

Lemma backwardScan_not_Fail fuel src htPath intLimit v to c R r e :
  backwardScan fuel src htPath intLimit v to c R = Some r → outcome r ≠ Fail e.
Proof.
  revert v c R r. induction fuel as [|fuel IH]; intros v c R r; simpl; [done|].
  destruct (to <=? v); [|by intros [= <-]].
  unfold probe. destruct (hashScan _ _ _ _) as [[num vals]|]; [|by intros [= <-]].
  destruct (collect _ _ _ _) as [c' R'].
  destruct (backwardScan fuel _ _ _ _ _ _ _) as [r0|] eqn:Hr0; [|done].
  intros [= <-]. rewrite emit_outcome. by eapply IH.
Qed.

Lemma Lookup_Fail_unchanged lookupValue expr src R e :
  outcome (Lookup lookupValue expr src R) = Fail e →
  final (Lookup lookupValue expr src R) = R.
Proof.
  unfold Lookup. destruct (lookupArgs expr) as [?|[vecPath intLimit]]; [done|].
  simpl. case_decide; [|done]. destruct (_ =? 0); [done|].
  destruct (table _ _ _); [|done].
  rewrite emit_outcome, filterMatches_outcome. done.
Qed.

Lemma PathExistence_Fail_unchanged hasPath expr src R e :
  outcome (PathExistence hasPath expr src R) = Fail e →
  final (PathExistence hasPath expr src R) = R.
Proof.
  unfold PathExistence.
  destruct (pathArgs hasPath expr) as [?|[vecPath intLimit]]; [done|].
  simpl. case_decide; [|done]. destruct (_ =? 0); [done|].
  intros Ho. by apply scanParts_not_Fail in Ho.
Qed.

Lemma IntRange_Fail_unchanged fuel intFrom expr src R r e :
  IntRange fuel intFrom expr src R = Some r → outcome r = Fail e →
  final r = R.
Proof.
  unfold IntRange.
  destruct (rangeArgs intFrom expr) as [?|[[[vecPath intLimit] from] to]];
    [by intros [= <-]|].
  simpl. case_decide; [|by intros [= <-]].
  destruct (from <? to).
  - destruct (forwardScan _ _ _ _ _ _ _ _) as [r0|] eqn:Hr0; [|done].
    intros [= <-]. rewrite emit_outcome. intros Ho.
    by apply forwardScan_not_Fail with (e:=e) in Hr0.
  - destruct (backwardScan _ _ _ _ _ _ _ _) as [r0|] eqn:Hr0; [|done].
    intros [= <-]. rewrite emit_outcome. intros Ho.
    by apply backwardScan_not_Fail with (e:=e) in Hr0.
Qed.

(** A literal or a predicate that returns an error has not touched the
    result set. *)
Lemma leaf_Fail_unchanged fuel q src R r e :
  leaf q = true → subQuery fuel q src R = Some r → outcome r = Fail e →
  final r = R.
Proof.
  destruct fuel as [|fuel]; [done|]. rewrite subQuery_S.
  destruct q as [| | |s|l|expr]; simpl; try (by intros _ [= <-]); try done.
  - intros _. case_decide; [by intros [= <-]|].
    destruct (ParseInt s); by intros [= <-].
  - destruct (expr !! "eq");
      [intros _ [= <-]; apply Lookup_Fail_unchanged|].
    destruct (expr !! "has");
      [intros _ [= <-]; apply PathExistence_Fail_unchanged|].
    destruct (expr !! "n"); [by destruct (expr !! "c")|].
    destruct (expr !! "c"); [done|]. intros _.
    destruct (expr !! "int-from"); [apply IntRange_Fail_unchanged|].
    destruct (expr !! "int from"); [apply IntRange_Fail_unchanged|].
    by intros [= <-].
Qed.

(** C4 (as the code has it): when a sub-query of a union does not return
    nil, the union stops there and returns that outcome; the sub-queries
    after it are not evaluated, and the result set is left as the failing
    sub-query left it, having started from the set that the sub-queries
    before it produced.  When the failing sub-query is a literal or an index
    predicate and returns an error, the result set is exactly the set that
    the earlier sub-queries produced. *)
Theorem EvalUnion_abort_keeps_partial fuel (pre post : list JSON)
    (bad : JSON) (src : Col) (R : gset Z) (r1 r2 : Run) :
  EvalUnion fuel pre src R = Some r1 → outcome r1 = OK →
  subQuery fuel bad src (final r1) = Some r2 → outcome r2 ≠ OK →
  EvalUnion fuel (pre ++ bad :: post) src R
  = Some (mkRun (outcome r2) (final r2) (trace r1 ++ trace r2))
  ∧ (leaf bad = true → (∃ e, outcome r2 = Fail e) → final r2 = final r1).
Proof.
  intros Hpre Ho1 Hbad Ho2. split.
  - unfold EvalUnion in *. rewrite (EvalUnion_app _ _ _ _ _ _ Hpre Ho1).
    simpl. rewrite Hbad. simpl.
    destruct (outcome r2) eqn:Ho; [done| |]; simpl; unfold emit; by rewrite Ho.
  - intros Hleaf [e He]. by eapply leaf_Fail_unchanged.
Qed.

End UnionProps.

(** In the sample collection, [["1", "x", "2"]] stops at ["x"] with {1}. *)
Lemma EvalUnion_abort_keeps_partial_witness :
  EvalUnion (ext:=Sample.externals) 1
    ([JString "1"] ++ JString "x" :: [JString "2"]) Sample.col ∅
  = Some (mkRun (Fail (ErrorInvalidPKID "x")) {[1]} [])
  ∧ (leaf (JString "x") = true →
     (∃ e, Fail (ErrorInvalidPKID "x") = Fail e) →
     ({[1]} : gset Z) = {[1]}).
Proof.
  assert (Hbad : outcome (mkRun (Fail (ErrorInvalidPKID "x")) {[1]} []) ≠ OK)
    by discriminate.
  exact (EvalUnion_abort_keeps_partial (ext:=Sample.externals) 1
           [JString "1"] [JString "2"] (JString "x") Sample.col ∅
           (mkRun OK {[1]} []) (mkRun (Fail (ErrorInvalidPKID "x")) {[1]} [])
           eq_refl eq_refl eq_refl Hbad).
Defined.

(** C4 fails as stated: in [["1", {"n": ["2", "x"]}]] the failing sub-query
    is the intersection; it had replaced the running set {1} by {2} before
    its own second sub-query failed, so the union returns the error with {2},
    not with the {1} of the sub-query evaluated before it. *)
Lemma EvalUnion_abort_counterexample :
  let bad := JObject {[ "n" := JArray [JString "2"; JString "x"] ]} in
  let before := EvalUnion (ext:=Sample.externals) 2 [JString "1"] Sample.col ∅ in
  let whole :=
    EvalUnion (ext:=Sample.externals) 2 [JString "1"; bad] Sample.col ∅ in
  outcome <$> before = Some OK
  ∧ final <$> before = Some {[1]}
  ∧ outcome <$> whole = Some (Fail (ErrorInvalidPKID "x"))
  ∧ final <$> whole = Some {[2]}
  ∧ final <$> whole ≠ final <$> before.
Proof.
  intros bad before whole.
  assert (Hb : final <$> before = Some {[1]}) by (vm_compute; reflexivity).
  assert (Hw : final <$> whole = Some {[2]}) by (vm_compute; reflexivity).
  split; [reflexivity|]. split; [exact Hb|]. split; [reflexivity|].
  split; [exact Hw|]. rewrite Hb, Hw. intros Heq. apply (inj Some) in Heq.
  assert (Hin : (2:Z) ∈ ({[1]} : gset Z)) by (rewrite <- Heq; set_solver).
  set_solver.
Qed.

Section UnionAlgebra.
Context {ext : Externals}.

Lemma accumulating_frame fuel (l : list JSON) src :
  forallb accumulating l = true →
  ∀ q R, q ∈ l → subQuery fuel q src R = frame R <$> subQuery fuel q src ∅.
Proof.
  intros Hacc q R Hq. apply subQuery_frame.
  rewrite forallb_forall in Hacc. apply Hacc. by apply list_elem_of_In.
Qed.

(** C3 (as the code has it): a union evaluates its sub-queries in sequence
    on the one result set.
    - Appending a sub-query that only adds to the running set (a literal, an
      index predicate, or a vector of such) never gives a smaller result set.
    - A vector of such sub-queries gives the same result set in any order.
    - Grouping is immaterial for all sub-queries: the flat vector and the
      vector of two nested vectors give the same result set.
    An intersection or a complement as sub-query replaces the running set
    and is not covered by the first two. *)
Theorem Union_accumulating_monotone fuel (src : Col) (R : gset Z) :
  (∀ l q r1,
     EvalUnion fuel l src R = Some r1 → outcome r1 = OK →
     accumulating q = true → is_Some (subQuery fuel q src ∅) →
     ∃ r2, EvalUnion fuel (l ++ [q]) src R = Some r2
           ∧ final r1 ⊆ final r2
           ∧ (size (final r1) ≤ size (final r2))%nat)
  ∧ (∀ l1 l2 r1,
       forallb accumulating l1 = true → l1 ≡ₚ l2 →
       EvalUnion fuel l1 src R = Some r1 → outcome r1 = OK →
       ∃ r2, EvalUnion fuel l2 src R = Some r2
             ∧ outcome r2 = OK ∧ final r2 = final r1)
  ∧ (∀ l1 l2 r,
       EvalUnion fuel (l1 ++ l2) src R = Some r → outcome r = OK →
       ∃ r', EvalUnion (S fuel) [JArray l1; JArray l2] src R = Some r'
             ∧ outcome r' = OK ∧ final r' = final r).
Proof.
  split; [|split].
  - intros l q r1 Hl Ho1 Hacc [rq Hq]. unfold EvalUnion in *.
    rewrite (EvalUnion_app _ _ _ _ _ _ Hl Ho1). simpl.
    rewrite (subQuery_frame _ _ _ _ Hacc), Hq. simpl.
    assert (Hsub : ∀ X : gset Z, final r1 ⊆ X →
              final r1 ⊆ X ∧ (size (final r1) ≤ size X)%nat).
    { intros X HX. split; [done|]. by apply subseteq_size. }
    destruct (outcome rq); simpl; eexists; (split; [done|]);
      apply Hsub; simpl; set_solver.
  - intros l1 l2 r1 Hacc Hperm Hl Ho1. unfold EvalUnion in *.
    destruct (EvalUnion_contributions _ _ _ _ _
                (accumulating_frame fuel l1 src Hacc) Hl Ho1) as (D & HD & Hf).
    rewrite (contributions_Permutation _ _ _ _ Hperm) in HD.
    assert (Hacc2 : forallb accumulating l2 = true).
    { rewrite forallb_forall in *. intros q Hq. apply Hacc.
      apply list_elem_of_In. rewrite Hperm. by apply list_elem_of_In. }
    destruct (contributions_EvalUnion _ _ _ R _
                (accumulating_frame fuel l2 src Hacc2) HD) as (r2 & H2 & Ho2 & Hf2).
    exists r2. split; [done|]. split; [done|]. by rewrite Hf, Hf2.
  - intros l1 l2 r Hl Ho. unfold EvalUnion in *.
    destruct (EvalUnion_app_inv _ _ _ _ _ _ Hl Ho)
      as (r1 & r2 & H1 & Ho1 & H2 & Ho2 & Hf).
    simpl. rewrite subQuery_S. unfold EvalUnion. rewrite H1. simpl.
    rewrite Ho1. rewrite subQuery_S. unfold EvalUnion. rewrite H2. simpl.
    rewrite Ho2. simpl.
    eexists. split; [done|]. by rewrite emit_outcome, !emit_final.
Qed.

End UnionAlgebra.

(** In the sample collection, appending [{"has": ["a"]}] to [["1", "9"]]
    enlarges {1, 9} to {1, 2, 3, 9}. *)
Lemma Union_accumulating_monotone_witness :
  ∃ r2, EvalUnion (ext:=Sample.externals) 1
          ([JString "1"; JString "9"]
           ++ [JObject {[ "has" := JArray [JString "a"] ]}]) Sample.col ∅
        = Some r2
        ∧ ({[1; 9]} : gset Z) ⊆ final r2
        ∧ (size ({[1%Z; 9%Z]} : gset Z) ≤ size (final r2))%nat.
Proof.
  assert (Hq : is_Some (subQuery (ext:=Sample.externals) 1
                          (JObject {[ "has" := JArray [JString "a"] ]})
                          Sample.col ∅)) by (vm_compute; eauto).
  assert (Hl : EvalUnion (ext:=Sample.externals) 1
                 [JString "1"; JString "9"] Sample.col ∅
               = Some (mkRun OK {[1; 9]} [])) by (vm_compute; reflexivity).
  assert (Hacc : accumulating (JObject {[ "has" := JArray [JString "a"] ]})
                 = true) by (vm_compute; reflexivity).
  destruct (proj1 (Union_accumulating_monotone (ext:=Sample.externals) 1
                     Sample.col ∅)
              [JString "1"; JString "9"]
              (JObject {[ "has" := JArray [JString "a"] ]})
              (mkRun OK {[1; 9]} []) Hl eq_refl Hacc Hq)
    as (r2 & H2 & Hsub & Hsize).
  exists r2. split; [exact H2|]. split; [exact Hsub|exact Hsize].
Defined.

(** C3 fails as stated: [["1", "2"]] evaluates to the two IDs {1, 2};
    with the intersection [{"n": ["3"]}] appended, the union evaluates
    without error to the single ID {3}. *)
Lemma Union_monotone_counterexample :
  let l := [JString "1"; JString "2"] in
  let q := JObject {[ "n" := JArray [JString "3"] ]} in
  let short := EvalUnion (ext:=Sample.externals) 2 l Sample.col ∅ in
  let long := EvalUnion (ext:=Sample.externals) 2 (l ++ [q]) Sample.col ∅ in
  outcome <$> short = Some OK
  ∧ outcome <$> long = Some OK
  ∧ size ∘ final <$> short = Some 2%nat
  ∧ size ∘ final <$> long = Some 1%nat.
Proof. repeat split; vm_compute; reflexivity. Qed.

(** ** PathExistence under a limit *)

Lemma Int_wrap_id z : Int.in_range z → Int.wrap z = z.
Proof.
  unfold Int.in_range, Int.min_int, Int.max_int, Int.wrap. intros Hz.
  rewrite Z.mod_small; lia.
Qed.

Lemma Int_wrap_range z : Int.in_range (Int.wrap z).
Proof.
  unfold Int.in_range, Int.min_int, Int.max_int, Int.wrap.
  pose proof (Z.mod_pos_bound (z + 2 ^ 63) (2 ^ 64)). lia.
Qed.

Lemma Int_of_float_range f : Int.in_range (Int.of_float f).
Proof.
  unfold Int.in_range. destruct f as [s|s| |s m e]; simpl;
    try (unfold Int.min_int, Int.max_int; lia).
  destruct (_ && _) eqn:Hb; [|unfold Int.min_int, Int.max_int; lia].
  apply andb_true_iff in Hb as [?%Z.leb_le ?%Z.leb_le]. lia.
Qed.

Section Limits.
Context {ext : Externals}.

Lemma limitOf_range expr intLimit :
  limitOf expr = inr intLimit → Int.in_range intLimit.
Proof.
  unfold limitOf. destruct (expr !! "limit") as [[]|]; intros [= <-];
    try apply Int_of_float_range.
  unfold Int.in_range, Int.min_int, Int.max_int; lia.
Qed.

Lemma addIDs_app intLimit ids1 ids2 c R :
  addIDs intLimit (ids1 ++ ids2) c R
  = let p := addIDs intLimit ids1 c R in
    if stop p then p else addIDs intLimit ids2 (count p) (found p).
Proof.
  revert c R. induction ids1 as [|id ids1 IH]; intros c R; simpl; [done|].
  destruct (_ =? intLimit); [done|]. apply IH.
Qed.

Lemma addIDs_reads intLimit ids c R : reads (addIDs intLimit ids c R) = [].
Proof.
  revert c R. induction ids as [|id ids IH]; intros c R; simpl; [done|].
  destruct (_ =? intLimit); [done|]. apply IH.
Qed.

(** The two inner loops add what one loop over all the entries adds. *)
Lemma scanSlices_addIDs ht part jointPath intLimit partDiv slices c R :
  let p := scanSlices ht part jointPath intLimit partDiv slices c R in
  let q := addIDs intLimit (slices ≫= λ i, GetPartition ht i partDiv) c R in
  stop p = stop q ∧ count p = count q ∧ found p = found q.
Proof.
  revert c R. induction slices as [|i slices IH]; intros c R; simpl;
    [by repeat split|].
  rewrite addIDs_app. simpl.
  destruct (stop (addIDs intLimit (GetPartition ht i partDiv) c R)) eqn:Hs;
    simpl; [by rewrite Hs|].
  apply IH.
Qed.

Lemma scanParts_addIDs src jointPath intLimit parts c R :
  (∀ p, p ∈ parts → is_Some (table src p jointPath)) →
  let r := scanParts src jointPath intLimit (partDivOf src) parts c R in
  outcome r = OK
  ∧ final r = found (addIDs intLimit (partEntries src jointPath parts) c R).
Proof.
  revert c R. induction parts as [|p parts IH]; intros c R Htab.
  - by split.
  - destruct (Htab p) as [ht Hht]; [left|].
    unfold partEntries. rewrite bind_cons, Hht.
    fold (partEntries src jointPath parts). rewrite addIDs_app.
    cbn [scanParts]. rewrite Hht. cbv zeta.
    destruct (scanSlices_addIDs ht p jointPath intLimit (partDivOf src)
                (seqZ 0 (partDivOf src)) c R) as (Hs & Hc & Hf).
    fold (sliceEntries ht (partDivOf src)) in Hs, Hc, Hf.
    rewrite <- Hs.
    destruct (stop (scanSlices _ _ _ _ _ _ _ _)); [by split|].
    rewrite emit_outcome, emit_final, <- Hc, <- Hf.
    apply IH. intros; apply Htab; by right.
Qed.

(** With a positive limit and the counter below it, the loop stops exactly
    when the list holds the entries still missing, and counts all entries
    otherwise. *)
Lemma addIDs_stop intLimit ids c (R : gset Z) :
  Int.in_range intLimit → 0 <= c < intLimit →
  let p := addIDs intLimit ids c R in
  (stop p = true ↔ intLimit - c <= Z.of_nat (length ids))
  ∧ (stop p = false → count p = c + Z.of_nat (length ids)).
Proof.
  intros HL. revert c R. induction ids as [|id ids IH]; intros c R Hc; simpl.
  - split; [split; [done|lia]|lia].
  - rewrite Int_wrap_id
      by (unfold Int.in_range, Int.min_int, Int.max_int in *; lia).
    destruct (c + 1 =? intLimit) eqn:Heq; simpl.
    + apply Z.eqb_eq in Heq. split; [split; [lia|done]|done].
    + apply Z.eqb_neq in Heq.
      destruct (IH (c + 1) ({[id]} ∪ R)) as [Hs Hcount]; [lia|].
      split; [rewrite Hs; lia|]. intros Hns. rewrite (Hcount Hns). lia.
Qed.

Lemma slicesRead_app_more n (sl1 sl2 : list (Event * list Z)) :
  (length (sl1 ≫= snd) < n)%nat →
  slicesRead n (sl1 ++ sl2)
  = sl1.*1 ++ slicesRead (n - length (sl1 ≫= snd)) sl2.
Proof.
  revert n. induction sl1 as [|[ev ids] sl1 IH]; intros n Hlt.
  - simpl. by rewrite Nat.sub_0_r.
  - rewrite bind_cons, length_app in Hlt. cbn [snd] in Hlt.
    rewrite bind_cons, length_app. cbn [snd].
    rewrite <- app_comm_cons, fmap_cons. cbn [slicesRead fst].
    rewrite decide_False by lia. rewrite IH by lia.
    rewrite <- app_comm_cons. do 3 f_equal. lia.
Qed.

Lemma slicesRead_app_enough n (sl1 sl2 : list (Event * list Z)) :
  (0 < n ≤ length (sl1 ≫= snd))%nat →
  slicesRead n (sl1 ++ sl2) = slicesRead n sl1.
Proof.
  revert n. induction sl1 as [|[ev ids] sl1 IH]; intros n Hn.
  - simpl in Hn. lia.
  - rewrite bind_cons, length_app in Hn. cbn [snd] in Hn.
    rewrite <- app_comm_cons. cbn [slicesRead]. f_equal.
    case_decide; [done|]. apply IH. lia.
Qed.

(** The slices of one table that the inner loops read. *)
Lemma scanSlices_reads ht part jointPath intLimit partDiv slices c R :
  Int.in_range intLimit → 0 <= c < intLimit →
  let sl := (λ i, (EvGetPartition part jointPath i partDiv,
                   GetPartition ht i partDiv)) <$> slices in
  let p := scanSlices ht part jointPath intLimit partDiv slices c R in
  reads p = slicesRead (Z.to_nat (intLimit - c)) sl
  ∧ (stop p = true ↔ intLimit - c <= Z.of_nat (length (sl ≫= snd)))
  ∧ (stop p = false → count p = c + Z.of_nat (length (sl ≫= snd))).
Proof.
  intros HL. revert c R. induction slices as [|i slices IH]; intros c R Hc.
  - simpl. split; [done|]. split; [split; [done|lia]|lia].
  - cbn [scanSlices fmap list_fmap slicesRead]. rewrite bind_cons, length_app.
    cbn [snd].
    destruct (addIDs_stop intLimit (GetPartition ht i partDiv) c R HL Hc)
      as [Hs Hcount].
    destruct (stop (addIDs intLimit (GetPartition ht i partDiv) c R)) eqn:Hst.
    + apply proj1 in Hs. specialize (Hs eq_refl). cbn [reads stop count].
      rewrite decide_True by lia. split; [done|].
      split; [split; [lia|done]|done].
    + specialize (Hcount eq_refl).
      assert (Hlt : Z.of_nat (length (GetPartition ht i partDiv))
                    < intLimit - c).
      { destruct (decide (intLimit - c
                          <= Z.of_nat (length (GetPartition ht i partDiv))))
          as [Hle|]; [|lia].
        apply Hs in Hle. done. }
      rewrite decide_False by lia. cbn [reads stop count]. rewrite Hcount.
      destruct (IH (c + Z.of_nat (length (GetPartition ht i partDiv)))
                  (found (addIDs intLimit (GetPartition ht i partDiv) c R)))
        as (Hr & Hs' & Hc'); [lia|].
      cbv zeta in Hr, Hs', Hc'. rewrite Hr. split; [|split].
      * do 2 f_equal. lia.
      * rewrite Hs'. lia.
      * intros Hns. rewrite (Hc' Hns). lia.
Qed.

(** The slices that [PathExistence] reads under a positive limit: the scan
    stops, across the partitions, with the slice in which the counter
    reaches the limit. *)
Lemma scanParts_trace src jointPath intLimit parts c R :
  Int.in_range intLimit → 0 <= c < intLimit →
  (∀ p, p ∈ parts → is_Some (table src p jointPath)) →
  trace (scanParts src jointPath intLimit (partDivOf src) parts c R)
  = slicesRead (Z.to_nat (intLimit - c)) (indexSlices src jointPath parts).
Proof.
  intros HL. revert c R. induction parts as [|p parts IH]; intros c R Hc Htab.
  - done.
  - destruct (Htab p) as [ht Hht]; [left|].
    unfold indexSlices. rewrite bind_cons, Hht.
    fold (indexSlices src jointPath parts).
    cbn [scanParts]. rewrite Hht. cbv zeta.
    destruct (scanSlices_reads ht p jointPath intLimit (partDivOf src)
                (seqZ 0 (partDivOf src)) c R HL Hc) as (Hr & Hs & Hcount).
    cbv zeta in Hr, Hs, Hcount.
    set (sl := (λ i, (EvGetPartition p jointPath i (partDivOf src),
                      GetPartition ht i (partDivOf src)))
               <$> seqZ 0 (partDivOf src)) in *.
    destruct (stop (scanSlices _ _ _ _ _ _ _ _)) eqn:Hst.
    + apply proj1 in Hs. specialize (Hs eq_refl). cbn [trace].
      rewrite Hr. by rewrite slicesRead_app_enough by lia.
    + specialize (Hcount eq_refl).
      assert (Hlt : Z.of_nat (length (sl ≫= snd)) < intLimit - c).
      { destruct (decide (intLimit - c <= Z.of_nat (length (sl ≫= snd))))
          as [Hle|]; [|lia].
        apply Hs in Hle. done. }
      cbn [emit trace]. rewrite Hr, Hcount.
      rewrite IH by (try lia; intros; apply Htab; by right).
      rewrite slicesRead_app_more by lia.
      pose proof (slicesRead_app_more (Z.to_nat (intLimit - c)) sl []) as Hall.
      rewrite !app_nil_r in Hall. rewrite Hall by lia.
      do 2 f_equal. lia.
Qed.

(** With a positive limit the loop adds the entries up to the one that
    makes the counter equal to the limit. *)
Lemma addIDs_take intLimit ids c (R : gset Z) :
  Int.in_range intLimit → 0 <= c < intLimit →
  found (addIDs intLimit ids c R)
  = R ∪ list_to_set (take (Z.to_nat (intLimit - c)) ids).
Proof.
  intros HL. revert c R. induction ids as [|id ids IH]; intros c R Hc; simpl.
  - rewrite take_nil. set_solver.
  - rewrite Int_wrap_id by (unfold Int.in_range, Int.min_int, Int.max_int in *; lia).
    replace (Z.to_nat (intLimit - c)) with (S (Z.to_nat (intLimit - (c + 1))))
      by lia.
    simpl. destruct (c + 1 =? intLimit) eqn:Heq.
    + apply Z.eqb_eq in Heq. replace (intLimit - (c + 1)) with 0 by lia.
      simpl. set_solver.
    + apply Z.eqb_neq in Heq. rewrite IH by lia. set_solver.
Qed.

(** C8 (as the code has it): with a limit [L > 0], an indexed path and a
    table for the path in every partition, [PathExistence] succeeds and adds
    to the result set exactly the first [L] entries of the index in scan
    order, or all of them when there are fewer; it reads the slices of the
    tables up to the one in which the counter reaches [L] and no slice of
    any partition after it.  The result set therefore grows by at most
    [min L (number of entries)] IDs, and by exactly that many when the
    entries are pairwise distinct IDs that are not yet in the result set. *)
Theorem PathExistence_limit (hasPath : JSON) (expr : gmap string JSON)
    (src : Col) (R : gset Z) (vecPath : list string) (L : Z) :
  pathArgs hasPath expr = inr (vecPath, L) → 0 < L →
  Join vecPath INDEX_PATH_SEP ∈ indexPaths src →
  numParts (db src) ≠ 0 →
  (∀ p, 0 <= p < numParts (db src) →
        is_Some (table src p (Join vecPath INDEX_PATH_SEP))) →
  let entries := indexEntries src (Join vecPath INDEX_PATH_SEP) in
  let r := PathExistence hasPath expr src R in
  outcome r = OK
  ∧ final r = R ∪ list_to_set (take (Z.to_nat L) entries)
  ∧ trace r
    = slicesRead (Z.to_nat L)
        (indexSlices src (Join vecPath INDEX_PATH_SEP)
           (seqZ 0 (numParts (db src))))
  ∧ (size (final r) ≤ size R + Z.to_nat L `min` length entries)%nat
  ∧ (NoDup entries → (∀ id, id ∈ entries → id ∉ R) →
     size (final r) = (size R + Z.to_nat L `min` length entries)%nat).
Proof.
  intros Hargs HL Hidx Hparts Htab entries r.
  assert (HLr : Int.in_range L).
  { unfold pathArgs in Hargs. destruct hasPath; try done.
    destruct (limitOf expr) eqn:Hlim; [done|]. injection Hargs as _ <-.
    by eapply limitOf_range. }
  assert (Htab' : ∀ p, p ∈ seqZ 0 (numParts (db src)) →
            is_Some (table src p (Join vecPath INDEX_PATH_SEP))).
  { intros p Hp. apply Htab. apply elem_of_seqZ in Hp. lia. }
  assert (Hr : outcome r = OK
               ∧ final r = R ∪ list_to_set (take (Z.to_nat L) entries)
               ∧ trace r
                 = slicesRead (Z.to_nat L)
                     (indexSlices src (Join vecPath INDEX_PATH_SEP)
                        (seqZ 0 (numParts (db src))))).
  { subst r. unfold PathExistence. rewrite Hargs. simpl.
    rewrite decide_True by done.
    destruct (numParts (db src) =? 0) eqn:Hz; [by apply Z.eqb_eq in Hz|].
    destruct (scanParts_addIDs src (Join vecPath INDEX_PATH_SEP) L
                (seqZ 0 (numParts (db src))) 0 R Htab') as [Ho Hf].
    split; [done|]. split.
    - rewrite Hf, addIDs_take by (done || lia). by rewrite Z.sub_0_r.
    - rewrite scanParts_trace by (done || lia). by rewrite Z.sub_0_r. }
  destruct Hr as (Ho & Hf & Ht). split; [done|]. split; [done|].
  split; [done|].
  rewrite Hf. set (taken := take (Z.to_nat L) entries).
  assert (Hlen : length taken = (Z.to_nat L `min` length entries)%nat)
    by apply length_take.
  split.
  - rewrite size_union_alt, <- Hlen.
    assert (Hle : ∀ l : list Z, (size (list_to_set l : gset Z) ≤ length l)%nat).
    { induction l as [|x l IH]; simpl;
        [change (size (∅ : gset Z) ≤ 0)%nat; by rewrite size_empty|].
      rewrite size_union_alt, size_singleton.
      assert (size (list_to_set l ∖ {[x]} : gset Z)
              ≤ size (list_to_set l : gset Z))%nat
        by (apply subseteq_size; set_solver).
      lia. }
    pose proof (Hle taken).
    assert (size (list_to_set taken ∖ R : gset Z)
            ≤ size (list_to_set taken : gset Z))%nat
      by (apply subseteq_size; set_solver).
    lia.
  - intros Hnd Hfresh. rewrite size_union, size_list_to_set, Hlen; [done| |].
    + eapply sublist_NoDup; [exact Hnd|apply sublist_take].
    + intros id HR Hin. apply elem_of_list_to_set in Hin.
      apply (Hfresh id); [|done]. by eapply subseteq_take.
Qed.

End Limits.

(** In the sample collection the index on [a] holds the IDs 1, 2, 3 once
    each; [{"has": ["a"], "limit": 2}] returns two of them. *)
Lemma PathExistence_limit_witness :
  let expr : gmap string JSON :=
    {[ "has" := JArray [JString "a"]; "limit" := Sample.num 2 ]} in
  let r := PathExistence (ext:=Sample.externals) (JArray [JString "a"]) expr
             Sample.col ∅ in
  outcome r = OK
  ∧ final r = ∅ ∪ list_to_set (take 2 [1; 2; 3])
  ∧ trace r = [EvGetPartition 0 "a" 0 1]
  ∧ (size (final r) ≤ size (∅ : gset Z) + 2 `min` 3)%nat
  ∧ (NoDup [1; 2; 3] → (∀ id : Z, id ∈ [1; 2; 3] → id ∉ (∅ : gset Z)) →
     size (final r) = (size (∅ : gset Z) + 2 `min` 3)%nat).
Proof.
  intros expr.
  assert (Htab : ∀ p, 0 <= p < numParts (db Sample.col) →
            is_Some (table Sample.col p
                       (Join ["a"] (INDEX_PATH_SEP (Externals:=Sample.externals))))).
  { intros p Hp. simpl in Hp. assert (p = 0) as -> by lia. vm_compute. eauto. }
  assert (Hidx : Join ["a"] (INDEX_PATH_SEP (Externals:=Sample.externals))
                 ∈ indexPaths Sample.col) by (vm_compute; set_solver).
  assert (Hnz : numParts (db Sample.col) ≠ 0) by (simpl; lia).
  exact (PathExistence_limit (ext:=Sample.externals) (JArray [JString "a"])
           expr Sample.col ∅ ["a"] 2 eq_refl eq_refl Hidx Hnz Htab).
Defined.

(** C8 fails as stated: after document 1 became [{"a":[1,2]}] the index on
    [a] holds the three documents 1, 2, 3 in four entries, document 1 twice.
    With limit 2 the two entries read are both document 1, and the result
    set has one ID, not [min 2 3 = 2]. *)
Lemma PathExistence_limit_counterexample :
  let expr : gmap string JSON :=
    {[ "has" := JArray [JString "a"]; "limit" := Sample.num 2 ]} in
  let r := PathExistence (ext:=Sample.externals) (JArray [JString "a"]) expr
             Sample.colMulti ∅ in
  let entries := indexEntries Sample.colMulti "a" in
  outcome r = OK
  ∧ entries = [1; 1; 2; 3]
  ∧ size (list_to_set entries : gset Z) = 3%nat
  ∧ size (final r) = 1%nat
  ∧ size (final r) ≠ (2 `min` 3)%nat.
Proof.
  intros expr r entries.
  assert (Hs : size (final r) = 1%nat) by (vm_compute; reflexivity).
  split; [reflexivity|]. split; [reflexivity|].
  split; [vm_compute; reflexivity|]. split; [exact Hs|].
  rewrite Hs. simpl. lia.
Qed.

(** ** IntRange: the two scan loops *)

Ltac int_lia :=
  unfold Int.in_range, Int.min_int, Int.max_int in *; lia.

Section Scans.
Context {ext : Externals}.

(** The forward loop visits [v, v+1, ..., to] and ends, when [to] is below
    the maximum integer. *)
Lemma forwardScan_values fuel src htPath intLimit v to c R :
  to < Int.max_int → Int.min_int <= v →
  (Z.to_nat (to - v + 1) < fuel)%nat →
  forwardScan fuel src htPath intLimit v to c R
  = Some (scanValues src htPath intLimit (seqZ v (to - v + 1)) c R).
Proof.
  intros Hto. revert v c R.
  induction fuel as [|fuel IH]; intros v c R Hv Hfuel; [lia|]. simpl.
  destruct (v <=? to) eqn:Hle.
  - apply Z.leb_le in Hle. rewrite seqZ_cons by lia. simpl.
    destruct (probe _ _ _ _ _ _) as [r|[[ev c'] R']]; [done|].
    rewrite Int_wrap_id by int_lia.
    replace (Z.succ v) with (v + 1) by lia.
    replace (Z.pred (to - v + 1)) with (to - (v + 1) + 1) by lia.
    by rewrite IH by int_lia.
  - apply Z.leb_gt in Hle. by rewrite seqZ_nil by lia.
Qed.

(** The backward loop visits [v, v-1, ..., to] and ends, when [to] is above
    the minimum integer. *)
Lemma backwardScan_values fuel src htPath intLimit v to c R :
  Int.min_int < to → v <= Int.max_int →
  (Z.to_nat (v - to + 1) < fuel)%nat →
  backwardScan fuel src htPath intLimit v to c R
  = Some (scanValues src htPath intLimit
            (reverse (seqZ to (v - to + 1))) c R).
Proof.
  intros Hto. revert v c R.
  induction fuel as [|fuel IH]; intros v c R Hv Hfuel; [lia|]. simpl.
  destruct (to <=? v) eqn:Hle.
  - apply Z.leb_le in Hle.
    replace (v - to + 1) with ((v - to) + 1) by lia.
    rewrite seqZ_app by lia. rewrite (seqZ_cons _ 1) by lia.
    rewrite (seqZ_nil _ (Z.pred 1)) by lia. rewrite reverse_snoc.
    replace (to + (v - to)) with v by lia. cbn [scanValues].
    destruct (probe _ _ _ _ _ _) as [r|[[ev c'] R']]; [done|].
    rewrite Int_wrap_id by int_lia.
    replace (v - to) with (v - 1 - to + 1) by lia.
    by rewrite IH by int_lia.
  - apply Z.leb_gt in Hle. by rewrite seqZ_nil by lia.
Qed.

(** When the minimum integer is the bound [to], the condition
    [lookupValue >= to] of the backward loop holds for every integer, and
    [lookupValue--] wraps around: the loop does not end. *)
Lemma backwardScan_min_int fuel src htPath intLimit v c R :
  (∀ v : Z, is_Some (hashScan src htPath (StrHash (pretty v)) intLimit)) →
  Int.in_range v →
  backwardScan fuel src htPath intLimit v Int.min_int c R = None.
Proof.
  intros Htab. revert v c R.
  induction fuel as [|fuel IH]; intros v c R Hv; [done|]. simpl.
  destruct (Int.min_int <=? v) eqn:Hle;
    [|apply Z.leb_gt in Hle; int_lia].
  unfold probe. destruct (Htab v) as [[num vals] ->].
  destruct (collect _ _ _ _) as [c' R'].
  by rewrite IH by apply Int_wrap_range.
Qed.

(** Once the counter has reached a positive limit, the inner loop adds
    nothing. *)
Lemma collect_at_limit intLimit vals (R : gset Z) :
  0 < intLimit → collect intLimit vals intLimit R = (intLimit, R).
Proof.
  intros HL. destruct vals as [|docID vals]; simpl; [done|].
  by rewrite (proj2 (Z.ltb_lt _ _) HL), Z.eqb_refl.
Qed.

(** Under a positive limit the counter stays within the limit, and the
    result set gains at most as many IDs as the counter has counted. *)
Lemma collect_bounded intLimit vals c (R R0 : gset Z) :
  0 < intLimit → Int.in_range intLimit → 0 <= c <= intLimit →
  R0 ⊆ R → Z.of_nat (size (R ∖ R0)) <= c →
  let cr := collect intLimit vals c R in
  c <= cr.1 <= intLimit ∧ R0 ⊆ cr.2 ∧ Z.of_nat (size (cr.2 ∖ R0)) <= cr.1.
Proof.
  intros HL HLr. revert c R.
  induction vals as [|docID vals IH]; intros c R Hc Hsub Hsize; simpl.
  - split; [lia|done].
  - rewrite (proj2 (Z.ltb_lt _ _) HL). simpl.
    destruct (c =? intLimit) eqn:Heq; simpl.
    + split; [lia|done].
    + apply Z.eqb_neq in Heq.
      rewrite Int_wrap_id by int_lia.
      destruct (IH (c + 1) ({[docID]} ∪ R)) as (Hc' & Hsub' & Hsize').
      * lia.
      * set_solver.
      * assert (size (({[docID]} ∪ R) ∖ R0) ≤ S (size (R ∖ R0)))%nat; [|lia].
        etrans; [apply (subseteq_size _ ({[docID]} ∪ R ∖ R0)); set_solver|].
        rewrite size_union_alt, size_singleton.
        assert (size ((R ∖ R0) ∖ {[docID]}) ≤ size (R ∖ R0))%nat
          by (apply subseteq_size; set_solver).
        lia.
      * split; [lia|done].
Qed.

(** Without a limit the inner loop adds every ID of the list. *)
Lemma collect_unlimited intLimit vals c (R : gset Z) :
  intLimit <= 0 →
  (collect intLimit vals c R).2 = R ∪ list_to_set vals.
Proof.
  intros HL. revert c R. induction vals as [|docID vals IH]; intros c R; simpl.
  - set_solver.
  - rewrite (proj2 (Z.ltb_ge _ _) HL). simpl. rewrite IH. set_solver.
Qed.

Lemma scanValues_probed src htPath intLimit values c R :
  (∀ v : Z, is_Some (hashScan src htPath (StrHash (pretty v)) intLimit)) →
  let r := scanValues src htPath intLimit values c R in
  outcome r = OK
  ∧ probed (trace r) = (λ v, StrHash (pretty v)) <$> values.
Proof.
  intros Htab. revert c R.
  induction values as [|v values IH]; intros c R; simpl; [done|].
  unfold probe. destruct (Htab v) as [[num vals] ->].
  destruct (collect _ _ _ _) as [c' R']. simpl.
  destruct (IH c' R') as [-> ->]. done.
Qed.

Lemma scanValues_bounded src htPath intLimit values c (R R0 : gset Z) :
  0 < intLimit → Int.in_range intLimit → 0 <= c <= intLimit →
  R0 ⊆ R → Z.of_nat (size (R ∖ R0)) <= c →
  let r := scanValues src htPath intLimit values c R in
  R0 ⊆ final r ∧ Z.of_nat (size (final r ∖ R0)) <= intLimit.
Proof.
  intros HL HLr. revert c R.
  induction values as [|v values IH]; intros c R Hc Hsub Hsize; simpl.
  - split; [done|lia].
  - unfold probe. destruct (hashScan _ _ _ _) as [[num vals]|]; simpl;
      [|split; [done|lia]].
    destruct (collect_bounded intLimit vals c R R0 HL HLr Hc Hsub Hsize)
      as (Hc' & Hsub' & Hsize').
    destruct (collect intLimit vals c R) as [c' R']. simpl in *.
    apply (IH c' R'); [lia|done..].
Qed.

Lemma scanValues_unlimited src htPath intLimit values c (R : gset Z) :
  intLimit <= 0 →
  (∀ v : Z, is_Some (hashScan src htPath (StrHash (pretty v)) intLimit)) →
  final (scanValues src htPath intLimit values c R)
  = R ∪ list_to_set (rangeMatches src htPath intLimit values).
Proof.
  intros HL Htab. revert c R.
  induction values as [|v values IH]; intros c R.
  - simpl. set_solver.
  - unfold rangeMatches. rewrite bind_cons.
    fold (rangeMatches src htPath intLimit values).
    cbn [scanValues]. unfold probe. destruct (Htab v) as [[num vals] ->].
    pose proof (collect_unlimited intLimit vals c R HL) as Hcol.
    destruct (collect intLimit vals c R) as [c' R']. simpl in *. subst R'.
    rewrite IH, list_to_set_app_L. set_solver.
Qed.

Lemma rangeMatches_reverse src htPath intLimit values :
  list_to_set (C:=gset Z) (rangeMatches src htPath intLimit (reverse values))
  = list_to_set (rangeMatches src htPath intLimit values).
Proof.
  apply set_eq. intros id. rewrite !elem_of_list_to_set.
  unfold rangeMatches. rewrite !list_elem_of_bind.
  by setoid_rewrite elem_of_reverse.
Qed.

Lemma rangeArgs_range intFrom expr vecPath intLimit from to :
  rangeArgs intFrom expr = inr (vecPath, intLimit, from, to) →
  Int.in_range intLimit ∧ Int.in_range from ∧ Int.in_range to.
Proof.
  unfold rangeArgs. destruct (expr !! "in") as [[]|]; try done.
  destruct (limitOf expr) as [|L] eqn:HL; [done|].
  apply limitOf_range in HL.
  assert (Hb : ∀ name v z, boundOf name v = inr z → Int.in_range z).
  { intros name [] z; try done. intros [= <-]. apply Int_of_float_range. }
  destruct (boundOf "int-from" intFrom) as [|f] eqn:Hf; [done|].
  apply Hb in Hf.
  destruct (expr !! "int-to") as [intTo|].
  - destruct (boundOf "int-to" intTo) as [|t] eqn:Ht; [done|].
    apply Hb in Ht. by intros [= <- <- <- <-].
  - destruct (expr !! "int to") as [intTo|]; [|done].
    destruct (boundOf "int-to" intTo) as [|t] eqn:Ht; [done|].
    apply Hb in Ht. by intros [= <- <- <- <-].
Qed.

(** When the bound [to] of a forward scan is below the maximum integer, and
    the bound [to] of a backward scan is above the minimum integer,
    [IntRange] on an indexed path ends, having run the iterations for the
    integers of the range in the order of the scan. *)
Lemma IntRange_values fuel intFrom expr src R vecPath intLimit from to :
  rangeArgs intFrom expr = inr (vecPath, intLimit, from, to) →
  Join vecPath "," ∈ indexPaths src →
  (from < to → to < Int.max_int) → (to <= from → Int.min_int < to) →
  (Z.to_nat (Z.abs (to - from) + 1) < fuel)%nat →
  IntRange fuel intFrom expr src R
  = Some (emit (if tooWide from to then [EvCritNoRepeat] else [])
            (scanValues src (Join vecPath ",") intLimit
               (rangeValues from to) 0 R)).
Proof.
  intros Hargs Hidx Hfwd Hbwd Hfuel.
  destruct (rangeArgs_range _ _ _ _ _ _ Hargs) as (_ & Hfrom & _).
  unfold IntRange. rewrite Hargs. simpl. rewrite decide_True by done.
  unfold rangeValues. destruct (from <? to) eqn:Hlt.
  - apply Z.ltb_lt in Hlt. specialize (Hfwd Hlt).
    by rewrite forwardScan_values by int_lia.
  - apply Z.ltb_ge in Hlt. specialize (Hbwd Hlt).
    by rewrite backwardScan_values by int_lia.
Qed.

(** C6: under a positive limit [L], on an indexed path whose table exists
    in the partition of every looked-up key, and with a bound [to] at which
    the scan loop ends (below the maximum integer for a forward scan, above
    the minimum integer for a backward scan):
    - once the counter equals [L], the loop over the matches of the current
      integer adds nothing;
    - the scan is not aborted: [IntRange] ends with nil having looked up
      every integer of the range, in scan order;
    - the result set has grown by at most [L] IDs. *)
Theorem IntRange_limit_bounds (intFrom : JSON) (expr : gmap string JSON)
    (src : Col) (R : gset Z) (vecPath : list string) (L from to : Z) :
  rangeArgs intFrom expr = inr (vecPath, L, from, to) → 0 < L →
  Join vecPath "," ∈ indexPaths src →
  (∀ v : Z, is_Some (hashScan src (Join vecPath ",") (StrHash (pretty v)) L)) →
  (from < to → to < Int.max_int) → (to <= from → Int.min_int < to) →
  (∀ vals R', collect L vals L R' = (L, R'))
  ∧ ∃ fuel r,
      IntRange fuel intFrom expr src R = Some r
      ∧ outcome r = OK
      ∧ probed (trace r)
        = (λ v, StrHash (pretty v)) <$> rangeValues from to
      ∧ R ⊆ final r
      ∧ (size (final r ∖ R) ≤ Z.to_nat L)%nat.
Proof.
  intros Hargs HL Hidx Htab Hfwd Hbwd.
  split; [intros; by apply collect_at_limit|].
  destruct (rangeArgs_range _ _ _ _ _ _ Hargs) as (HLr & _ & _).
  eexists (S (Z.to_nat (Z.abs (to - from) + 1))), _.
  split; [apply (IntRange_values _ _ _ _ _ _ _ _ _ Hargs Hidx Hfwd Hbwd); lia|].
  rewrite emit_outcome, emit_final.
  destruct (scanValues_probed src (Join vecPath ",") L (rangeValues from to)
              0 R Htab) as [Ho Hp].
  destruct (scanValues_bounded src (Join vecPath ",") L (rangeValues from to)
              0 R R HL HLr) as [Hsub Hsize]; [lia|done| |].
  { replace (R ∖ R) with (∅ : gset Z) by set_solver. by rewrite size_empty. }
  split; [done|]. split; [|split; [done|lia]].
  simpl. rewrite <- Hp. unfold probed. rewrite omap_app.
  by destruct (tooWide from to).
Qed.

(** The two directions of a range give the same result set when there is
    no limit and both bounds are strictly between the minimum and the
    maximum integer. *)
Lemma IntRange_direction_independent (intFrom1 intFrom2 : JSON)
    (expr1 expr2 : gmap string JSON) (src : Col) (R : gset Z)
    (vecPath : list string) (a b : Z) :
  rangeArgs intFrom1 expr1 = inr (vecPath, 0, a, b) →
  rangeArgs intFrom2 expr2 = inr (vecPath, 0, b, a) →
  Join vecPath "," ∈ indexPaths src →
  (∀ v : Z, is_Some (hashScan src (Join vecPath ",") (StrHash (pretty v)) 0)) →
  Int.min_int < a < Int.max_int → Int.min_int < b < Int.max_int →
  ∃ fuel r1 r2,
    IntRange fuel intFrom1 expr1 src R = Some r1
    ∧ IntRange fuel intFrom2 expr2 src R = Some r2
    ∧ outcome r1 = OK ∧ outcome r2 = OK
    ∧ final r1 = final r2.
Proof.
  intros H1 H2 Hidx Htab Ha Hb.
  eexists (S (Z.to_nat (Z.abs (b - a) + 1))), _, _.
  split; [apply (IntRange_values _ _ _ _ _ _ _ _ _ H1 Hidx); lia|].
  split; [apply (IntRange_values _ _ _ _ _ _ _ _ _ H2 Hidx); lia|].
  rewrite !emit_outcome, !emit_final.
  split; [by apply scanValues_probed|]. split; [by apply scanValues_probed|].
  rewrite !scanValues_unlimited by done. f_equal.
  unfold rangeValues.
  destruct (a <? b) eqn:Hab, (b <? a) eqn:Hba;
    rewrite ?Z.ltb_lt, ?Z.ltb_ge in Hab, Hba; try lia.
  - by rewrite rangeMatches_reverse.
  - by rewrite rangeMatches_reverse.
  - by assert (a = b) as -> by lia.
Qed.

End Scans.

(** In the sample collection the table of the index on [a] is found for
    every key. *)
Lemma Sample_hashScan key limit :
  is_Some (hashScan Sample.col "a" key limit).
Proof.
  unfold hashScan. simpl. rewrite Z.rem_1_r.
  assert (Ht : table Sample.col 0 "a"
               = Some (Sample.tableOf [(Sample.strHash "1", 1);
                                       (Sample.strHash "2", 2);
                                       (Sample.strHash "5", 3)]))
    by reflexivity.
  rewrite Ht. simpl. eauto.
Qed.

(** In the sample collection, [{"int-from": 1, "int-to": 3, "in": ["a"],
    "limit": 1}] looks up 1, 2 and 3 and returns at most one ID. *)
Lemma IntRange_limit_bounds_witness :
  let expr : gmap string JSON :=
    {[ "int-from" := Sample.num 1; "int-to" := Sample.num 3;
       "in" := JArray [JString "a"]; "limit" := Sample.num 1 ]} in
  (∀ vals R', collect 1 vals 1 R' = (1, R'))
  ∧ ∃ fuel r,
      IntRange (ext:=Sample.externals) fuel (Sample.num 1) expr Sample.col ∅
      = Some r
      ∧ outcome r = OK
      ∧ probed (trace r)
        = (λ v, Sample.strHash (pretty v)) <$> rangeValues 1 3
      ∧ ∅ ⊆ final r
      ∧ (size (final r ∖ ∅) ≤ Z.to_nat 1)%nat.
Proof.
  intros expr.
  assert (Hargs : rangeArgs (ext:=Sample.externals) (Sample.num 1) expr
                  = inr (["a"], 1, 1, 3)) by (vm_compute; reflexivity).
  assert (Hidx : Join ["a"] "," ∈ indexPaths Sample.col)
    by (vm_compute; set_solver).
  assert (Hfwd : 1 < 3 → 3 < Int.max_int) by (intros _; reflexivity).
  assert (Hbwd : 3 <= 1 → Int.min_int < 3) by (intros _; reflexivity).
  exact (IntRange_limit_bounds (ext:=Sample.externals) (Sample.num 1) expr
           Sample.col ∅ ["a"] 1 1 3 Hargs eq_refl Hidx
           (λ v, Sample_hashScan (Sample.strHash (pretty v)) 1) Hfwd Hbwd).
Defined.

(** C7, at the minimum integer: the range whose two bounds are the minimum
    integer should visit that single value.  The backward loop visits it,
    decrements [lookupValue] past the minimum to the maximum integer and
    goes on, since every integer is [>= to]: [IntRange], and with it the
    query, does not return, whatever the number of steps it is given. *)
Theorem IntRange_min_int_diverges (fuel : nat) :
  Int.of_float minIntFloat = Int.min_int
  ∧ IntRange (ext:=Sample.externals) fuel (JNumber minIntFloat) minIntRange
      Sample.col ∅ = None
  ∧ EvalQuery (ext:=Sample.externals) fuel (JObject minIntRange)
      Sample.col ∅ = None.
Proof.
  assert (Hargs : rangeArgs (ext:=Sample.externals) (JNumber minIntFloat)
                    minIntRange
                  = inr (["a"], 0, Int.min_int, Int.min_int))
    by (vm_compute; reflexivity).
  assert (Hidx : Join ["a"] "," ∈ indexPaths Sample.col)
    by (vm_compute; set_solver).
  assert (Hrange : ∀ n, IntRange (ext:=Sample.externals) n
                          (JNumber minIntFloat) minIntRange Sample.col ∅
                        = None).
  { intros n. unfold IntRange. rewrite Hargs. cbv beta iota zeta.
    rewrite decide_True by exact Hidx. rewrite Z.ltb_irrefl.
    rewrite backwardScan_min_int; [done| |int_lia].
    intros v. apply Sample_hashScan. }
  split; [reflexivity|]. split; [apply Hrange|].
  destruct fuel as [|fuel]; [done|].
  unfold EvalQuery. cbn [evalQuery].
  assert (Heq : minIntRange !! "eq" = None) by reflexivity.
  assert (Hhas : minIntRange !! "has" = None) by reflexivity.
  assert (Hn : minIntRange !! "n" = None) by reflexivity.
  assert (Hc : minIntRange !! "c" = None) by reflexivity.
  assert (Hfrom : minIntRange !! "int-from" = Some (JNumber minIntFloat))
    by reflexivity.
  rewrite Heq, Hhas, Hn, Hc, Hfrom. by rewrite Hrange.
Qed.

(** In the sample collection, the ranges from 1 to 5 and from 5 to 1 give
    the same result set. *)
Lemma IntRange_direction_independent_sample :
  let expr15 : gmap string JSON :=
    {[ "int-from" := Sample.num 1; "int-to" := Sample.num 5;
       "in" := JArray [JString "a"] ]} in
  let expr51 : gmap string JSON :=
    {[ "int-from" := Sample.num 5; "int-to" := Sample.num 1;
       "in" := JArray [JString "a"] ]} in
  ∃ fuel r1 r2,
    IntRange (ext:=Sample.externals) fuel (Sample.num 1) expr15 Sample.col ∅
    = Some r1
    ∧ IntRange (ext:=Sample.externals) fuel (Sample.num 5) expr51 Sample.col ∅
      = Some r2
    ∧ outcome r1 = OK ∧ outcome r2 = OK
    ∧ final r1 = final r2.
Proof.
  intros expr15 expr51.
  assert (H1 : rangeArgs (ext:=Sample.externals) (Sample.num 1) expr15
               = inr (["a"], 0, 1, 5)) by (vm_compute; reflexivity).
  assert (H2 : rangeArgs (ext:=Sample.externals) (Sample.num 5) expr51
               = inr (["a"], 0, 5, 1)) by (vm_compute; reflexivity).
  assert (Hidx : Join ["a"] "," ∈ indexPaths Sample.col)
    by (vm_compute; set_solver).
  assert (Ha : Int.min_int < 1 < Int.max_int) by (vm_compute; split; reflexivity).
  assert (Hb : Int.min_int < 5 < Int.max_int) by (vm_compute; split; reflexivity).
  exact (IntRange_direction_independent (ext:=Sample.externals) (Sample.num 1)
           (Sample.num 5) expr15 expr51 Sample.col ∅ ["a"] 1 5 H1 H2 Hidx
           (λ v, Sample_hashScan (Sample.strHash (pretty v)) 0) Ha Hb).
Defined.

(** * Further properties of the query processor *)

(** ** Literals *)

Lemma insert_all_ids (ids : list Z) (R : gset Z) :
  foldl (λ res id, {[id]} ∪ res) R ids = R ∪ list_to_set ids.
Proof.
  revert R. induction ids as [|id ids IH]; intros R; simpl; [set_solver|].
  rewrite IH. set_solver.
Qed.

Lemma digit_pretty_N_char m :
  (m < 10)%N → digit (pretty_N_char m) = Some (Z.of_N m).
Proof.
  intros Hm.
  assert (m = 0 ∨ m = 1 ∨ m = 2 ∨ m = 3 ∨ m = 4 ∨ m = 5 ∨ m = 6 ∨ m = 7
          ∨ m = 8 ∨ m = 9)%N as Hcases by lia.
  repeat (destruct Hcases as [->|Hcases]; [reflexivity|]). by subst.
Qed.

(** Reading the digits that the printer puts in front of [s] shifts the
    accumulator and adds the printed number. *)
Lemma digits_pretty_N_go x s acc :
  ∃ k, 0 <= k
       ∧ digits (pretty_N_go x s) acc = digits s (acc * 10 ^ k + Z.of_N x).
Proof.
  revert s acc. induction (N.lt_wf_0 x) as [x _ IH]; intros s acc.
  destruct (decide (x = 0%N)) as [->|Hx].
  - exists 0. split; [done|]. rewrite pretty_N_go_0. f_equal.
    change (Z.of_N 0) with 0. rewrite Z.pow_0_r. lia.
  - rewrite pretty_N_go_step by lia.
    destruct (IH (x `div` 10)%N ltac:(apply N.div_lt; lia)
                (String (pretty_N_char (x `mod` 10)) s) acc) as (k & Hk & ->).
    exists (k + 1). split; [lia|]. cbn [digits].
    rewrite digit_pretty_N_char by (apply N.mod_lt; lia). simpl. f_equal.
    rewrite Z.pow_add_r by lia.
    pose proof (N.div_mod x 10 ltac:(lia)) as Hdm.
    assert (Z.of_N x = 10 * Z.of_N (x `div` 10) + Z.of_N (x `mod` 10)) by lia.
    lia.
Qed.

(** The printed form of a positive number starts with a digit. *)
Lemma pretty_N_go_head x s :
  (0 < x)%N →
  ∃ c rest, pretty_N_go x s = String c rest ∧ is_Some (digit c).
Proof.
  revert s. induction (N.lt_wf_0 x) as [x _ IH]; intros s Hx.
  rewrite pretty_N_go_step by done.
  destruct (decide (x `div` 10 = 0)%N) as [->|Hd].
  - rewrite pretty_N_go_0. eexists _, _. split; [done|].
    rewrite digit_pretty_N_char by (apply N.mod_lt; lia). eauto.
  - apply IH; [apply N.div_lt; lia|by apply N.neq_0_lt_0].
Qed.

Lemma ParseInt_pretty_positive p :
  ∃ c rest, pretty (Zpos p) = String c rest
            ∧ is_Some (digit c)
            ∧ digits (String c rest) 0 = Some (Zpos p).
Proof.
  destruct (pretty_N_go_head (Npos p) "" ltac:(lia)) as (c & rest & Hs & Hc).
  exists c, rest.
  assert (Hp : pretty (Zpos p) = pretty_N_go (Npos p) "") by reflexivity.
  split; [by rewrite Hp|]. split; [done|].
  destruct (digits_pretty_N_go (Npos p) "" 0) as (k & _ & Hd).
  by rewrite <- Hs, Hd.
Qed.

(** [strconv.ParseInt] reads back the decimal form of every 64-bit
    integer. *)
Lemma ParseInt_pretty z : Int.in_range z → ParseInt (pretty z) = Some z.
Proof.
  intros Hz. destruct z as [|p|p].
  - reflexivity.
  - destruct (ParseInt_pretty_positive p) as (c & rest & -> & [d Hc] & Hd).
    unfold ParseInt.
    rewrite decide_False by (intros ->; discriminate).
    rewrite decide_False by (intros ->; discriminate).
    rewrite Hd. simpl.
    destruct (Z.pos p <? 2 ^ 63) eqn:Hlt; [done|].
    apply Z.ltb_ge in Hlt. int_lia.
  - destruct (ParseInt_pretty_positive p) as (c & rest & Hs & _ & Hd).
    assert (Hn : pretty (Zneg p) = String "-" (pretty (Zpos p)))
      by reflexivity.
    rewrite Hn, Hs. unfold ParseInt.
    rewrite decide_False by discriminate.
    rewrite decide_True by done.
    rewrite Hd. simpl.
    destruct (Z.pos p <=? 2 ^ 63) eqn:Hle; [done|].
    apply Z.leb_gt in Hle. int_lia.
Qed.

Lemma digits_nonneg s acc n : digits s acc = Some n → 0 <= acc → 0 <= n.
Proof.
  revert acc. induction s as [|c s IH]; intros acc; simpl.
  - by intros [= <-].
  - unfold digit. destruct (_ && _) eqn:Hc; [|done]. simpl.
    apply andb_true_iff in Hc as [?%Z.leb_le ?%Z.leb_le].
    intros Hd Hacc. apply (IH _ Hd). lia.
Qed.

Lemma ParseInt_range s z : ParseInt s = Some z → Int.in_range z.
Proof.
  unfold ParseInt. destruct s as [|c rest]; [done|].
  assert (Hgen : ∀ (neg : bool) (t : string),
    match t with
    | EmptyString => None
    | _ => un ← digits t 0;
           if neg then (if un <=? 2 ^ 63 then Some (- un) else None)
           else (if un <? 2 ^ 63 then Some un else None)
    end = Some z → Int.in_range z).
  { intros neg t. destruct t as [|c' t']; [done|].
    destruct (digits (String c' t') 0) as [un|] eqn:Hd; [|done]. simpl.
    apply digits_nonneg in Hd; [|done].
    destruct neg.
    - destruct (un <=? 2 ^ 63) eqn:Hle; [|done]. apply Z.leb_le in Hle.
      intros [= <-]. int_lia.
    - destruct (un <? 2 ^ 63) eqn:Hlt; [|done]. apply Z.ltb_lt in Hlt.
      intros [= <-]. int_lia. }
  repeat case_decide;
    [apply (Hgen false rest)|apply (Hgen true rest)
    |apply (Hgen false (String c rest))].
Qed.

Section Literals.
Context {ext : Externals}.

(** The literal ["all"] adds to the result set the ID of every document
    that the iteration over the collection visits, and nothing else; it
    never fails. *)
Lemma all_collects_every_document fuel (src : Col) (R : gset Z) :
  evalQuery (S fuel) (JString "all") src R false
  = Some (mkRun OK (R ∪ list_to_set (forEachDoc src)) [EvForEachDoc]).
Proof.
  simpl. unfold EvalAllIDs. by rewrite insert_all_ids.
Qed.

(** X1: a document ID written in decimal is a query for that document: for
    every 64-bit integer [z], the literal that prints [z] adds exactly [z]
    to the result set. *)
Theorem literal_selects_document fuel (src : Col) (R : gset Z) (z : Z) :
  Int.in_range z →
  evalQuery (S fuel) (JString (pretty z)) src R false
  = Some (mkRun OK ({[z]} ∪ R) []).
Proof.
  intros Hz. pose proof (ParseInt_pretty z Hz) as Hp. simpl.
  rewrite decide_False; [by rewrite Hp|].
  intros Hall. by rewrite Hall in Hp.
Qed.

(** X2: a string literal other than ["all"] either is a decimal 64-bit
    integer, and then that one ID is added, or it is rejected as not being a
    document ID, with the result set unchanged.  An ID outside the 64-bit
    range is never added. *)
Theorem literal_id_or_rejected fuel (src : Col) (R : gset Z) (s : string) :
  s ≠ "all" →
  (∃ z, ParseInt s = Some z ∧ Int.in_range z
        ∧ evalQuery (S fuel) (JString s) src R false
          = Some (mkRun OK ({[z]} ∪ R) []))
  ∨ (ParseInt s = None
     ∧ evalQuery (S fuel) (JString s) src R false
       = Some (mkRun (Fail (ErrorInvalidPKID s)) R [])).
Proof.
  intros Hs. simpl. rewrite decide_False by done.
  destruct (ParseInt s) as [z|] eqn:Hp; [left|right; done].
  exists z. split; [done|]. split; [by eapply ParseInt_range|done].
Qed.

End Literals.

Lemma literal_selects_document_witness :
  evalQuery (ext:=Sample.externals) 1 (JString (pretty 42)) Sample.col ∅ false
  = Some (mkRun OK ({[42]} ∪ ∅) []).
Proof.
  apply (literal_selects_document (ext:=Sample.externals) 0 Sample.col ∅ 42).
  vm_compute. split; discriminate.
Defined.

Lemma literal_id_or_rejected_witness :
  (∃ z, ParseInt "12x" = Some z ∧ Int.in_range z
        ∧ evalQuery (ext:=Sample.externals) 1 (JString "12x") Sample.col ∅ false
          = Some (mkRun OK ({[z]} ∪ ∅) []))
  ∨ (ParseInt "12x" = None
     ∧ evalQuery (ext:=Sample.externals) 1 (JString "12x") Sample.col ∅ false
       = Some (mkRun (Fail (ErrorInvalidPKID "12x")) ∅ [])).
Proof.
  apply (literal_id_or_rejected (ext:=Sample.externals) 0 Sample.col ∅ "12x").
  discriminate.
Defined.

(** ** Validation comes before any read *)

Section FailFast.
Context {ext : Externals}.

(** X3: a predicate that returns an error has failed in its validation: it
    has read no index table and no document and has left the result set
    unchanged.  [IntRange] has at most logged its advisory about wide
    ranges. *)
Theorem predicate_error_reads_nothing (expr : gmap string JSON) (src : Col)
    (R : gset Z) (e : Error) :
  (∀ lookupValue,
     outcome (Lookup lookupValue expr src R) = Fail e →
     Lookup lookupValue expr src R = mkRun (Fail e) R [])
  ∧ (∀ hasPath,
       outcome (PathExistence hasPath expr src R) = Fail e →
       PathExistence hasPath expr src R = mkRun (Fail e) R [])
  ∧ (∀ fuel intFrom r,
       IntRange fuel intFrom expr src R = Some r → outcome r = Fail e →
       final r = R ∧ Forall (λ ev, ev = EvCritNoRepeat) (trace r)).
Proof.
  split; [|split].
  - intros lookupValue. unfold Lookup.
    destruct (lookupArgs expr) as [e'|[vecPath intLimit]];
      [by intros [= ->]|].
    simpl. case_decide; [|by intros [= ->]].
    destruct (_ =? 0); [done|]. destruct (table _ _ _); [|done].
    by rewrite emit_outcome, filterMatches_outcome.
  - intros hasPath. unfold PathExistence.
    destruct (pathArgs hasPath expr) as [e'|[vecPath intLimit]];
      [by intros [= ->]|].
    simpl. case_decide; [|by intros [= ->]].
    destruct (_ =? 0); [done|]. intros Ho. by apply scanParts_not_Fail in Ho.
  - intros fuel intFrom r. unfold IntRange.
    destruct (rangeArgs intFrom expr) as [e'|[[[vecPath intLimit] from] to]];
      [by intros [= <-]|].
    simpl. case_decide.
    + destruct (from <? to).
      * destruct (forwardScan _ _ _ _ _ _ _ _) as [r0|] eqn:Hr0; [|done].
        intros [= <-]. rewrite emit_outcome. intros Ho.
        by apply forwardScan_not_Fail with (e:=e) in Hr0.
      * destruct (backwardScan _ _ _ _ _ _ _ _) as [r0|] eqn:Hr0; [|done].
        intros [= <-]. rewrite emit_outcome. intros Ho.
        by apply backwardScan_not_Fail with (e:=e) in Hr0.
    + intros [= <-] _. simpl. split; [done|].
      destruct (tooWide from to); repeat constructor.
Qed.

End FailFast.

(** In the sample collection, a lookup without the path [in] is rejected
    before anything is read. *)
Lemma predicate_error_reads_nothing_witness :
  Lookup (ext:=Sample.externals) (Sample.num 2) ∅ Sample.col {[5]}
  = mkRun (Fail ErrorMissingLookUp) {[5]} [].
Proof.
  apply (proj1 (predicate_error_reads_nothing (ext:=Sample.externals) ∅
                  Sample.col {[5]} ErrorMissingLookUp)).
  reflexivity.
Defined.

(** ** Literals and predicates only add *)

Section AddOnly.
Context {ext : Externals}.

(** X4: a literal, an index predicate, or a vector of such neither reads
    nor removes what is in the running result set: evaluated on [R] it does
    what it does on the empty set, same outcome and same reads, and its
    result set is [R] joined with its result on the empty set. *)
Theorem accumulating_adds_only fuel (q : JSON) (src : Col) (R : gset Z)
    (r : Run) :
  accumulating q = true → subQuery fuel q src R = Some r →
  R ⊆ final r
  ∧ ∃ r0, subQuery fuel q src ∅ = Some r0
          ∧ outcome r = outcome r0
          ∧ final r = R ∪ final r0
          ∧ trace r = trace r0.
Proof.
  intros Hacc Hr. rewrite (subQuery_frame _ _ _ _ Hacc) in Hr.
  destruct (subQuery fuel q src ∅) as [r0|]; [|done].
  injection Hr as <-. simpl. split; [set_solver|]. by exists r0.
Qed.

End AddOnly.

(** In the sample collection, [["7", {"eq": 2, "in": ["a"]}]] on the
    running set {9} gives {9} joined with its result {2, 7} on the empty
    set. *)
Lemma accumulating_adds_only_witness :
  let q := JArray [JString "7";
                   JObject {[ "eq" := Sample.num 2;
                              "in" := JArray [JString "a"] ]}] in
  ∃ r, subQuery (ext:=Sample.externals) 2 q Sample.col {[9]} = Some r
       ∧ {[9]} ⊆ final r
       ∧ ∃ r0, subQuery (ext:=Sample.externals) 2 q Sample.col ∅ = Some r0
               ∧ outcome r = outcome r0
               ∧ final r = {[9]} ∪ final r0
               ∧ trace r = trace r0.
Proof.
  intros q.
  assert (Hacc : accumulating q = true) by (vm_compute; reflexivity).
  destruct (subQuery (ext:=Sample.externals) 2 q Sample.col {[9]})
    as [r|] eqn:Hr; [|by vm_compute in Hr].
  exists r. split; [done|].
  exact (accumulating_adds_only (ext:=Sample.externals) 2 q Sample.col {[9]}
           r Hacc Hr).
Defined.

(** ** Intersect and Complement over their sub-results *)

Lemma meets_elem first (R : gset Z) rs (id : Z) :
  id ∈ (meets first R rs).2
  ↔ (first = false ∨ rs = [] → id ∈ R) ∧ ∀ r, r ∈ rs → id ∈ final r.
Proof.
  revert first R. induction rs as [|r rs IH]; intros first R; simpl.
  - split; [intros HR; split; [done|]; by intros r ?%elem_of_nil|].
    intros [HR _]. apply HR. by right.
  - rewrite IH. split.
    + intros [HR Hall]. specialize (HR (or_introl eq_refl)). split.
      * intros [->|?]; [|done]. set_solver.
      * intros r' [->|?]%elem_of_cons; [|by apply Hall].
        destruct first; set_solver.
    + intros [HR Hall]. split.
      * intros _. destruct first.
        -- apply Hall. left.
        -- apply elem_of_filter. split; [apply HR; by left|apply Hall; left].
      * intros r' Hr'. apply Hall. by right.
Qed.

Lemma meets_first first (R : gset Z) rs :
  (meets first R rs).1 = first && bool_decide (rs = []).
Proof.
  destruct rs as [|r rs]; simpl; [by destruct first|].
  rewrite andb_false_r. generalize (if first then final r
                                    else filter (λ k, k ∈ R) (final r)).
  induction rs as [|r' rs IH]; intros X; simpl; [done|]. apply IH.
Qed.

Lemma xors_perm (R : gset Z) rs1 rs2 : rs1 ≡ₚ rs2 → xors R rs1 = xors R rs2.
Proof.
  unfold xors. intros Hp. revert R.
  induction Hp as [|r rs1 rs2 _ IH|r1 r2 rs|rs1 rs2 rs3 _ IH1 _ IH2];
    intros R; simpl.
  - done.
  - apply IH.
  - f_equal. unfold symdiff. apply set_eq. intros k.
    destruct (decide (k ∈ R)), (decide (k ∈ final r1)),
      (decide (k ∈ final r2)); set_solver.
  - by rewrite IH1.
Qed.

Section SetLoops.
Context {ext : Externals}.
Variable ev : JSON -> Col -> gset Z -> option Run.

Lemma subResults_Permutation l1 l2 src rs1 :
  l1 ≡ₚ l2 → subResults ev l1 src = Some rs1 →
  ∃ rs2, subResults ev l2 src = Some rs2 ∧ rs1 ≡ₚ rs2.
Proof.
  intros Hp. revert rs1.
  induction Hp as [|q l1 l2 _ IH|q1 q2 l|l1 l2 l3 _ IH1 _ IH2];
    intros rs1; simpl.
  - intros [= <-]. by exists [].
  - destruct (ev q src ∅) as [r|]; simpl; [|done].
    destruct (outcome r); try done.
    destruct (subResults ev l1 src) as [rs|]; simpl; [|done].
    intros [= <-]. destruct (IH rs eq_refl) as (rs2 & -> & Hrs).
    exists (r :: rs2). split; [done|]. by constructor.
  - destruct (ev q1 src ∅) as [r1|], (ev q2 src ∅) as [r2|]; simpl;
      try done; try (by destruct (outcome r1));
      try (by destruct (outcome r2)).
    destruct (outcome r1), (outcome r2); try done.
    destruct (subResults ev l src) as [rs|]; simpl; [|done].
    intros [= <-]. eexists. split; [done|]. constructor.
  - intros H1. destruct (IH1 _ H1) as (rs2 & H2 & Hp2).
    destruct (IH2 _ H2) as (rs3 & H3 & Hp3).
    exists rs3. split; [done|]. by etrans.
Qed.

(** The loop of [Intersect], through sub-queries that succeed. *)
Lemma intersectLoop_app pre rest src first R rs :
  subResults ev pre src = Some rs →
  intersectLoop ev (pre ++ rest) src first R
  = emit (mjoin (trace <$> rs))
      <$> intersectLoop ev rest src (meets first R rs).1
            (meets first R rs).2.
Proof.
  revert first R rs. induction pre as [|q pre IH]; intros first R rs; simpl.
  - intros [= <-]. simpl. by rewrite emit_nil.
  - destruct (ev q src ∅) as [r|]; simpl; [|done].
    destruct (outcome r) eqn:Ho; try done.
    destruct (subResults ev pre src) as [rs'|] eqn:Hrs; simpl; [|done].
    intros [= <-]. simpl.
    destruct first; rewrite (IH _ _ rs' eq_refl), emit_emit; done.
Qed.

(** The loop of [Complement], through sub-queries that succeed. *)
Lemma complementLoop_app pre rest src R rs :
  subResults ev pre src = Some rs →
  complementLoop ev (pre ++ rest) src R
  = emit (mjoin (trace <$> rs))
      <$> complementLoop ev rest src (xors R rs).
Proof.
  revert R rs. induction pre as [|q pre IH]; intros R rs; simpl.
  - intros [= <-]. simpl. by rewrite emit_nil.
  - destruct (ev q src ∅) as [r|]; simpl; [|done].
    destruct (outcome r) eqn:Ho; try done.
    destruct (subResults ev pre src) as [rs'|] eqn:Hrs; simpl; [|done].
    intros [= <-]. simpl.
    rewrite (IH _ rs' eq_refl), emit_emit, complement_symdiff. done.
Qed.

(** A loop that returns nil has had nil from every sub-query. *)
Lemma intersectLoop_OK l src first R r :
  intersectLoop ev l src first R = Some r → outcome r = OK →
  is_Some (subResults ev l src).
Proof.
  revert first R r. induction l as [|q l IH]; intros first R r; simpl;
    [eauto|].
  destruct (ev q src ∅) as [rq|]; simpl; [|done].
  destruct (outcome rq) eqn:Ho; try (by intros [= <-]).
  destruct first.
  - destruct (intersectLoop ev l src false _) as [r0|] eqn:Hl; [|done].
    intros [= <-] Hr. rewrite emit_outcome in Hr.
    destruct (IH _ _ _ Hl Hr) as [rs ->]. simpl. eauto.
  - destruct (intersectLoop ev l src false _) as [r0|] eqn:Hl; [|done].
    intros [= <-] Hr. rewrite emit_outcome in Hr.
    destruct (IH _ _ _ Hl Hr) as [rs ->]. simpl. eauto.
Qed.

Lemma complementLoop_OK l src R r :
  complementLoop ev l src R = Some r → outcome r = OK →
  is_Some (subResults ev l src).
Proof.
  revert R r. induction l as [|q l IH]; intros R r; simpl; [eauto|].
  destruct (ev q src ∅) as [rq|]; simpl; [|done].
  destruct (outcome rq) eqn:Ho; try (by intros [= <-]).
  destruct (complementLoop ev l src _) as [r0|] eqn:Hl; [|done].
  intros [= <-] Hr. rewrite emit_outcome in Hr.
  destruct (IH _ _ Hl Hr) as [rs ->]. simpl. eauto.
Qed.

End SetLoops.

Section SetOperatorProps.
Context {ext : Externals}.

Lemma subResults_nonempty ev (l : list JSON) src rs :
  l ≠ [] → subResults ev l src = Some rs → rs ≠ [].
Proof.
  destruct l as [|q l]; [done|]. intros _. simpl.
  destruct (ev q src ∅) as [r|]; simpl; [|done].
  destruct (outcome r); try done.
  destruct (subResults ev l src); simpl; [|done]. by intros [= <-].
Qed.

(** What [Intersect] returns when every sub-query succeeds. *)
Lemma Intersect_subResults fuel (l : list JSON) (src : Col)
    (R : gset Z) (rs : list Run) :
  l ≠ [] → subResults (subQuery fuel) l src = Some rs →
  ∃ r, Intersect fuel (JArray l) src R = Some r
       ∧ outcome r = OK
       ∧ (∀ id, id ∈ final r ↔ ∀ rq, rq ∈ rs → id ∈ final rq)
       ∧ trace r = mjoin (trace <$> rs).
Proof.
  intros Hl Hrs. unfold Intersect, Intersect_.
  pose proof (intersectLoop_app (subQuery fuel) l [] src true R rs Hrs) as Hloop.
  rewrite app_nil_r in Hloop. rewrite Hloop. simpl.
  eexists. split; [done|]. split; [done|]. simpl. split.
  - intros id. rewrite meets_elem. split; [by intros [_ ?]|].
    intros Hall. split; [|done]. intros [?|Hnil]; [done|].
    by apply (subResults_nonempty _ _ _ _ Hl) in Hrs.
  - by rewrite app_nil_r.
Qed.

(** X5: [Intersect] over a non-empty vector of sub-queries that all succeed
    returns the IDs that are in the result of every sub-query.  It does not
    depend on the running result set, which it replaces, and it evaluates
    every sub-query, also when the intersection is already empty. *)
Theorem Intersect_is_intersection fuel (l : list JSON) (src : Col)
    (R : gset Z) (rs : list Run) :
  l ≠ [] → subResults (subQuery fuel) l src = Some rs →
  ∃ r, Intersect fuel (JArray l) src R = Some r
       ∧ outcome r = OK
       ∧ (∀ id, id ∈ final r ↔ ∀ rq, rq ∈ rs → id ∈ final rq)
       ∧ trace r = mjoin (trace <$> rs).
Proof.
  intros Hl Hrs. by apply Intersect_subResults.
Qed.

(** X6: when a sub-query of [Intersect] or of [Complement] fails, the
    operator returns that outcome at once; the partial result of the failing
    sub-query is dropped, and the result set is what the operator returns
    for the sub-queries before the failing one. *)
Theorem set_operator_abort fuel (pre post : list JSON) (bad : JSON)
    (src : Col) (R : gset Z) (r2 : Run) :
  subQuery fuel bad src ∅ = Some r2 → outcome r2 ≠ OK →
  (∀ r1, Intersect fuel (JArray pre) src R = Some r1 → outcome r1 = OK →
     Intersect fuel (JArray (pre ++ bad :: post)) src R
     = Some (mkRun (outcome r2) (final r1) (trace r1 ++ trace r2)))
  ∧ (∀ r1, Complement fuel (JArray pre) src R = Some r1 → outcome r1 = OK →
       Complement fuel (JArray (pre ++ bad :: post)) src R
       = Some (mkRun (outcome r2) (final r1) (trace r1 ++ trace r2))).
Proof.
  intros Hbad Ho2. split.
  - intros r1 Hpre Ho1. unfold Intersect, Intersect_ in *.
    destruct (intersectLoop_OK _ _ _ _ _ _ Hpre Ho1) as [rs Hrs].
    pose proof (intersectLoop_app (subQuery fuel) pre [] src true R rs Hrs)
      as H1.
    rewrite app_nil_r, Hpre in H1. simpl in H1. injection H1 as ->.
    rewrite (intersectLoop_app _ _ _ _ _ _ _ Hrs). simpl.
    rewrite Hbad. simpl. rewrite app_nil_r.
    by destruct (outcome r2).
  - intros r1 Hpre Ho1. unfold Complement, Complement_ in *.
    destruct (complementLoop_OK _ _ _ _ _ Hpre Ho1) as [rs Hrs].
    pose proof (complementLoop_app (subQuery fuel) pre [] src R rs Hrs) as H1.
    rewrite app_nil_r, Hpre in H1. simpl in H1. injection H1 as ->.
    rewrite (complementLoop_app _ _ _ _ _ _ Hrs). simpl.
    rewrite Hbad. simpl. rewrite app_nil_r.
    by destruct (outcome r2).
Qed.

(** X7: the result of [Intersect] and of [Complement] does not depend on
    the order of the sub-queries, when they all succeed. *)
Theorem set_operators_order_independent fuel (l1 l2 : list JSON)
    (src : Col) (R : gset Z) :
  l1 ≡ₚ l2 →
  (∀ r1, Intersect fuel (JArray l1) src R = Some r1 → outcome r1 = OK →
     ∃ r2, Intersect fuel (JArray l2) src R = Some r2
           ∧ outcome r2 = OK ∧ final r2 = final r1)
  ∧ (∀ r1, Complement fuel (JArray l1) src R = Some r1 → outcome r1 = OK →
       ∃ r2, Complement fuel (JArray l2) src R = Some r2
             ∧ outcome r2 = OK ∧ final r2 = final r1).
Proof.
  intros Hp. split.
  - intros r1 H1 Ho1. destruct (decide (l1 = [])) as [->|Hne].
    { apply Permutation_nil_l in Hp. subst l2. by exists r1. }
    assert (Hne2 : l2 ≠ []).
    { intros ->. apply Permutation_nil_r in Hp. by subst l1. }
    unfold Intersect, Intersect_ in H1.
    destruct (intersectLoop_OK _ _ _ _ _ _ H1 Ho1) as [rs1 Hrs1].
    destruct (subResults_Permutation _ _ _ _ _ Hp Hrs1) as (rs2 & Hrs2 & Hprs).
    destruct (Intersect_subResults fuel l1 src R rs1 Hne Hrs1)
      as (r1' & H1' & _ & Hf1 & _).
    unfold Intersect, Intersect_ in H1'. rewrite H1 in H1'.
    injection H1' as <-.
    destruct (Intersect_subResults fuel l2 src R rs2 Hne2 Hrs2)
      as (r2 & H2 & Ho2 & Hf2 & _).
    exists r2. split; [done|]. split; [done|].
    apply set_eq. intros id. rewrite Hf1, Hf2.
    by setoid_rewrite Hprs.
  - intros r1 H1 Ho1. unfold Complement, Complement_ in *.
    destruct (complementLoop_OK _ _ _ _ _ H1 Ho1) as [rs1 Hrs1].
    destruct (subResults_Permutation _ _ _ _ _ Hp Hrs1) as (rs2 & Hrs2 & Hprs).
    pose proof (complementLoop_app (subQuery fuel) l1 [] src R rs1 Hrs1) as H1'.
    rewrite app_nil_r, H1 in H1'. simpl in H1'. injection H1' as ->.
    pose proof (complementLoop_app (subQuery fuel) l2 [] src R rs2 Hrs2) as H2.
    rewrite app_nil_r in H2. rewrite H2. simpl.
    eexists. split; [done|]. split; [done|]. simpl. by apply xors_perm.
Qed.

(** X8: the query [{"c": ["all", Q]}] on an empty result set returns the
    symmetric difference of all document IDs and the result of [Q]; when
    the result of [Q] holds IDs of the collection only, these are the
    documents of the collection that [Q] does not return. *)
Theorem Complement_all_except fuel (Q : JSON) (src : Col) (rQ : Run) :
  subQuery fuel Q src ∅ = Some rQ → outcome rQ = OK →
  ∃ r, Complement fuel (JArray [JString "all"; Q]) src ∅ = Some r
       ∧ outcome r = OK
       ∧ final r = symdiff (list_to_set (forEachDoc src)) (final rQ)
       ∧ (final rQ ⊆ list_to_set (forEachDoc src) →
          final r = list_to_set (forEachDoc src) ∖ final rQ).
Proof.
  intros HQ HoQ. destruct fuel as [|fuel]; [done|].
  unfold Complement, Complement_. cbn [complementLoop].
  rewrite (subQuery_S fuel (JString "all")).
  rewrite decide_True by done. cbn [mbind option_bind].
  unfold EvalAllIDs. cbn [outcome final trace]. rewrite HQ.
  cbn [mbind option_bind]. rewrite HoQ. simpl.
  eexists. split; [done|]. split; [done|]. simpl.
  rewrite !complement_symdiff, insert_all_ids.
  assert (Hall : symdiff (symdiff ∅ (∅ ∪ list_to_set (forEachDoc src)))
                   (final rQ)
                 = symdiff (list_to_set (forEachDoc src)) (final rQ)).
  { unfold symdiff. set_solver. }
  split; [exact Hall|]. intros Hsub. rewrite Hall. unfold symdiff. set_solver.
Qed.

End SetOperatorProps.

(** In the sample collection, [{"n": [{"has": ["a"]}, "2"]}] on the running
    set {9} is the intersection of the two sub-results. *)
Lemma Intersect_is_intersection_witness :
  let l := [JObject {[ "has" := JArray [JString "a"] ]}; JString "2"] in
  ∃ rs r,
    subResults (subQuery (ext:=Sample.externals) 1) l Sample.col = Some rs
    ∧ Intersect (ext:=Sample.externals) 1 (JArray l) Sample.col {[9]} = Some r
    ∧ outcome r = OK
    ∧ (∀ id, id ∈ final r ↔ ∀ rq, rq ∈ rs → id ∈ final rq)
    ∧ trace r = mjoin (trace <$> rs).
Proof.
  intros l.
  destruct (subResults (subQuery (ext:=Sample.externals) 1) l Sample.col)
    as [rs|] eqn:Hrs; [|by vm_compute in Hrs].
  assert (Hl : l ≠ []) by discriminate.
  destruct (Intersect_is_intersection (ext:=Sample.externals) 1 l Sample.col
              {[9]} rs Hl Hrs) as (r & Hr).
  by exists rs, r.
Defined.

(** In the sample collection, [{"n": ["1", "x", "2"]}] on the running set
    {9} stops at ["x"] with the result {1} of [{"n": ["1"]}]. *)
Lemma set_operator_abort_witness :
  Intersect (ext:=Sample.externals) 1
    (JArray ([JString "1"] ++ JString "x" :: [JString "2"])) Sample.col {[9]}
  = Some (mkRun (Fail (ErrorInvalidPKID "x")) ({[1]} ∪ ∅) ([] ++ [])).
Proof.
  assert (Ho2 : outcome (mkRun (Fail (ErrorInvalidPKID "x")) ∅ []) ≠ OK)
    by discriminate.
  exact (proj1 (set_operator_abort (ext:=Sample.externals) 1 [JString "1"]
                  [JString "2"] (JString "x") Sample.col {[9]}
                  (mkRun (Fail (ErrorInvalidPKID "x")) ∅ []) eq_refl Ho2)
           (mkRun OK ({[1]} ∪ ∅) []) eq_refl eq_refl).
Defined.

(** In the sample collection, [{"n": ["1", "all"]}] and
    [{"n": ["all", "1"]}] give the same result set. *)
Lemma set_operators_order_independent_witness :
  ∃ r1 r2,
    Intersect (ext:=Sample.externals) 1 (JArray [JString "1"; JString "all"])
      Sample.col ∅ = Some r1
    ∧ Intersect (ext:=Sample.externals) 1 (JArray [JString "all"; JString "1"])
        Sample.col ∅ = Some r2
    ∧ outcome r2 = OK ∧ final r2 = final r1.
Proof.
  destruct (Intersect (ext:=Sample.externals) 1
              (JArray [JString "1"; JString "all"]) Sample.col ∅)
    as [r1|] eqn:H1; [|by vm_compute in H1].
  assert (Ho1 : outcome r1 = OK).
  { vm_compute in H1. by injection H1 as <-. }
  destruct (proj1 (set_operators_order_independent (ext:=Sample.externals) 1
                     [JString "1"; JString "all"]
                     [JString "all"; JString "1"] Sample.col ∅
                     (perm_swap _ _ _)) r1 H1 Ho1) as (r2 & H2 & Ho2 & Hf).
  by exists r1, r2.
Defined.

(** In the sample collection, [{"c": ["all", {"eq": 2, "in": ["a"]}]}]
    returns the documents 1 and 3. *)
Lemma Complement_all_except_witness :
  let Q := JObject {[ "eq" := Sample.num 2; "in" := JArray [JString "a"] ]} in
  ∃ r, Complement (ext:=Sample.externals) 1 (JArray [JString "all"; Q])
         Sample.col ∅ = Some r
       ∧ outcome r = OK
       ∧ final r = list_to_set [1; 2; 3] ∖ {[2]}.
Proof.
  intros Q.
  assert (HQ : subQuery (ext:=Sample.externals) 1 Q Sample.col ∅
               = Some (mkRun OK {[2]} [EvGet 0 "a" (Sample.strHash "2") 0;
                                       EvRead 2]))
    by (vm_compute; reflexivity).
  destruct (Complement_all_except (ext:=Sample.externals) 1 Q Sample.col _
              HQ eq_refl) as (r & Hr & Ho & _ & Hf).
  exists r. split; [done|]. split; [done|]. apply Hf.
  change ({[2]} ⊆ (list_to_set [1; 2; 3] : gset Z)).
  intros id Hid. apply elem_of_singleton in Hid as ->.
  apply elem_of_list_to_set. right. left.
Defined.

(** ** The exact result of the index predicates *)

Section ExactResults.
Context {ext : Externals}.

Lemma matchValues_exact str (m : Z) vs (R : gset Z) :
  matchValues str m vs R
  = R ∪ (if existsb (λ v, bool_decide (Sprint v = str)) vs
         then {[m]} else ∅).
Proof.
  unfold matchValues. revert R. induction vs as [|v vs IH]; intros R; simpl.
  - set_solver.
  - rewrite IH. case_decide as Hv.
    + rewrite bool_decide_true by done. simpl.
      destruct (existsb _ vs); set_solver.
    + rewrite bool_decide_false by done. done.
Qed.

Lemma filterMatches_exact src vecPath str vals (R : gset Z) :
  filterMatches src vecPath str vals R
  = mkRun OK
      (R ∪ list_to_set (filter (λ id, verified src vecPath str id) vals))
      (EvRead <$> vals).
Proof.
  revert R. induction vals as [|m vals IH]; intros R; simpl.
  - f_equal. set_solver.
  - rewrite filter_cons.
    assert (Hv : verified src vecPath str m
                 = match read src m with
                   | Some doc =>
                       existsb (λ v, bool_decide (Sprint v = str))
                         (GetIn doc vecPath)
                   | None => false
                   end) by done.
    destruct (read src m) as [doc|]; rewrite IH; unfold emit; simpl; f_equal.
    + rewrite matchValues_exact.
      destruct (existsb _ (GetIn doc vecPath)) eqn:Hex.
      * destruct (decide _) as [_|Hn]; [set_solver|].
        exfalso. apply Hn. rewrite Hv. exact I.
      * destruct (decide _) as [Hy|_]; [|set_solver].
        rewrite Hv in Hy. destruct Hy.
    + destruct (decide _) as [Hy|_]; [|done].
      rewrite Hv in Hy. destruct Hy.
Qed.

(** X9: on an indexed path, [Lookup] reads one index table, the one of the
    partition of the target's hash, and then every candidate document once,
    in the order of the table; it adds exactly the candidates that pass the
    collision filter. *)
Theorem Lookup_exact (lookupValue : JSON) (expr : gmap string JSON)
    (src : Col) (R : gset Z) (vecPath : list string) (L : Z)
    (ht : HashTable) :
  lookupArgs expr = inr (vecPath, L) →
  Join vecPath INDEX_PATH_SEP ∈ indexPaths src →
  numParts (db src) ≠ 0 →
  table src (Z.rem (StrHash (Sprint lookupValue)) (numParts (db src)))
    (Join vecPath INDEX_PATH_SEP) = Some ht →
  let hash := StrHash (Sprint lookupValue) in
  let candidates := Get ht hash L in
  Lookup lookupValue expr src R
  = mkRun OK
      (R ∪ list_to_set
             (filter (λ id, verified src vecPath (Sprint lookupValue) id)
                candidates))
      (EvGet (Z.rem hash (numParts (db src))) (Join vecPath INDEX_PATH_SEP)
         hash L
       :: (EvRead <$> candidates)).
Proof.
  intros Hargs Hidx Hparts Hht hash candidates. unfold Lookup.
  rewrite Hargs. cbv beta iota zeta. rewrite decide_True by done.
  destruct (numParts (db src) =? 0) eqn:Hz; [by apply Z.eqb_eq in Hz|].
  rewrite Hht. by rewrite filterMatches_exact.
Qed.

(** Without a limit, and with fewer entries than the counter can count,
    the loop over the IDs of a slice never stops the scan. *)
Lemma addIDs_unlimited intLimit ids c (R : gset Z) :
  intLimit <= 0 → 0 <= c →
  c + Z.of_nat (length ids) <= Int.max_int →
  addIDs intLimit ids c R
  = mkPass false (c + Z.of_nat (length ids)) (R ∪ list_to_set ids) [].
Proof.
  intros HL. revert c R. induction ids as [|id ids IH]; intros c R Hc Hlen;
    simpl in *.
  - f_equal; [lia|set_solver].
  - rewrite Int_wrap_id by int_lia.
    destruct (c + 1 =? intLimit) eqn:Heq; [apply Z.eqb_eq in Heq; lia|].
    rewrite IH by lia. f_equal; [lia|set_solver].
Qed.

Lemma scanSlices_unlimited ht part jointPath intLimit partDiv slices c
    (R : gset Z) :
  intLimit <= 0 → 0 <= c →
  let sl := (λ i, (EvGetPartition part jointPath i partDiv,
                   GetPartition ht i partDiv)) <$> slices in
  c + Z.of_nat (length (sl ≫= snd)) <= Int.max_int →
  scanSlices ht part jointPath intLimit partDiv slices c R
  = mkPass false (c + Z.of_nat (length (sl ≫= snd)))
      (R ∪ list_to_set (sl ≫= snd)) sl.*1.
Proof.
  intros HL. cbv zeta. revert c R.
  induction slices as [|i slices IH]; intros c R Hc.
  - simpl. intros _. f_equal; [lia|set_solver].
  - cbn [fmap list_fmap]. rewrite bind_cons, length_app. cbn [snd].
    intros Hlen. cbn [scanSlices].
    rewrite addIDs_unlimited by int_lia. simpl.
    rewrite IH by int_lia. simpl.
    f_equal; [lia|]. rewrite list_to_set_app_L. by rewrite (assoc_L (∪)).
Qed.

Lemma indexSlices_entries src jointPath parts :
  indexSlices src jointPath parts ≫= snd = partEntries src jointPath parts.
Proof.
  unfold indexSlices, partEntries.
  induction parts as [|p parts IH]; [done|].
  rewrite !bind_cons, bind_app, IH. f_equal.
  destruct (table src p jointPath) as [ht|]; [|done].
  unfold sliceEntries. generalize (seqZ 0 (partDivOf src)). intros slices.
  induction slices as [|i slices IHs]; [done|].
  cbn [fmap list_fmap]. rewrite !bind_cons. cbn [snd]. by rewrite IHs.
Qed.

Lemma scanParts_unlimited src jointPath intLimit parts c (R : gset Z) :
  intLimit <= 0 → 0 <= c →
  (∀ p, p ∈ parts → is_Some (table src p jointPath)) →
  c + Z.of_nat (length (indexSlices src jointPath parts ≫= snd))
    <= Int.max_int →
  scanParts src jointPath intLimit (partDivOf src) parts c R
  = mkRun OK (R ∪ list_to_set (indexSlices src jointPath parts ≫= snd))
      (indexSlices src jointPath parts).*1.
Proof.
  intros HL. revert c R. induction parts as [|p parts IH];
    intros c R Hc Htab.
  - simpl. intros _. f_equal. set_solver.
  - destruct (Htab p) as [ht Hht]; [left|].
    unfold indexSlices. rewrite bind_cons, Hht.
    fold (indexSlices src jointPath parts).
    rewrite bind_app, length_app, fmap_app. intros Hlen.
    cbn [scanParts]. rewrite Hht. cbv zeta.
    rewrite scanSlices_unlimited by int_lia. simpl.
    rewrite IH by (try int_lia; intros; apply Htab; by right).
    unfold emit. simpl. f_equal.
    rewrite list_to_set_app_L. by rewrite (assoc_L (∪)).
Qed.

(** X10: without a limit ([limit] absent, zero or negative), on an indexed
    path with a table in every partition and fewer entries than a 64-bit
    counter can count, [PathExistence] reads every slice of every partition
    in order and adds every document ID that the index holds. *)
Theorem PathExistence_unlimited (hasPath : JSON) (expr : gmap string JSON)
    (src : Col) (R : gset Z) (vecPath : list string) (L : Z) :
  pathArgs hasPath expr = inr (vecPath, L) → L <= 0 →
  Join vecPath INDEX_PATH_SEP ∈ indexPaths src →
  numParts (db src) ≠ 0 →
  (∀ p, 0 <= p < numParts (db src) →
        is_Some (table src p (Join vecPath INDEX_PATH_SEP))) →
  let entries := indexEntries src (Join vecPath INDEX_PATH_SEP) in
  Z.of_nat (length entries) <= Int.max_int →
  PathExistence hasPath expr src R
  = mkRun OK (R ∪ list_to_set entries)
      (indexSlices src (Join vecPath INDEX_PATH_SEP)
         (seqZ 0 (numParts (db src)))).*1.
Proof.
  intros Hargs HL Hidx Hparts Htab entries Hlen.
  unfold PathExistence. rewrite Hargs. cbv beta iota zeta.
  rewrite decide_True by done.
  destruct (numParts (db src) =? 0) eqn:Hz; [by apply Z.eqb_eq in Hz|].
  subst entries. unfold indexEntries in *.
  rewrite <- indexSlices_entries in *.
  rewrite scanParts_unlimited; [done|done|done| |lia].
  intros p Hp. apply Htab. apply elem_of_seqZ in Hp. lia.
Qed.

End ExactResults.

(** In the sample collection, [{"eq": 2, "in": ["a"]}] reads the table of
    partition 0 and the one candidate, document 2, and adds it. *)
Lemma Lookup_exact_witness :
  let expr : gmap string JSON :=
    {[ "eq" := Sample.num 2; "in" := JArray [JString "a"] ]} in
  let ht := Sample.tableOf [(Sample.strHash "1", 1); (Sample.strHash "2", 2);
                            (Sample.strHash "5", 3)] in
  let hash := Sample.strHash (Sample.sprint (Sample.num 2)) in
  Lookup (ext:=Sample.externals) (Sample.num 2) expr Sample.col ∅
  = mkRun OK
      (∅ ∪ list_to_set
             (filter (λ id, verified (ext:=Sample.externals) Sample.col ["a"]
                              (Sample.sprint (Sample.num 2)) id)
                (Get ht hash 0)))
      (EvGet (Z.rem hash 1) "a" hash 0 :: (EvRead <$> Get ht hash 0)).
Proof.
  intros expr ht hash.
  assert (Hargs : lookupArgs (ext:=Sample.externals) expr = inr (["a"], 0))
    by (vm_compute; reflexivity).
  assert (Hidx : Join ["a"] (INDEX_PATH_SEP (Externals:=Sample.externals))
                 ∈ indexPaths Sample.col) by (vm_compute; set_solver).
  assert (Hnz : numParts (db Sample.col) ≠ 0) by (simpl; lia).
  assert (Hht : table Sample.col (Z.rem hash (numParts (db Sample.col)))
                  (Join ["a"] (INDEX_PATH_SEP (Externals:=Sample.externals)))
                = Some ht) by (vm_compute; reflexivity).
  exact (Lookup_exact (ext:=Sample.externals) (Sample.num 2) expr Sample.col
           ∅ ["a"] 0 ht Hargs Hidx Hnz Hht).
Defined.

(** In the sample collection, [{"has": ["a"]}] reads the one slice of the
    one table and adds the documents 1, 2 and 3. *)
Lemma PathExistence_unlimited_witness :
  let expr : gmap string JSON := {[ "has" := JArray [JString "a"] ]} in
  PathExistence (ext:=Sample.externals) (JArray [JString "a"]) expr
    Sample.col ∅
  = mkRun OK (∅ ∪ list_to_set [1; 2; 3]) [EvGetPartition 0 "a" 0 1].
Proof.
  intros expr.
  assert (Htab : ∀ p, 0 <= p < numParts (db Sample.col) →
            is_Some (table Sample.col p
                       (Join ["a"] (INDEX_PATH_SEP (Externals:=Sample.externals))))).
  { intros p Hp. simpl in Hp. assert (p = 0) as -> by lia. vm_compute. eauto. }
  assert (Hidx : Join ["a"] (INDEX_PATH_SEP (Externals:=Sample.externals))
                 ∈ indexPaths Sample.col) by (vm_compute; set_solver).
  assert (Hnz : numParts (db Sample.col) ≠ 0) by (simpl; lia).
  assert (Hlen : Z.of_nat (length (indexEntries Sample.col
                   (Join ["a"] (INDEX_PATH_SEP (Externals:=Sample.externals)))))
                 <= Int.max_int) by (vm_compute; discriminate).
  assert (HL : 0 <= 0) by lia.
  exact (PathExistence_unlimited (ext:=Sample.externals)
           (JArray [JString "a"]) expr Sample.col ∅ ["a"] 0 eq_refl HL Hidx
           Hnz Htab Hlen).
Defined.

(** ** The exact result of IntRange *)

Section RangeResults.
Context {ext : Externals}.

(** Under a positive limit the inner loop adds the matches that the
    counter still admits. *)
Lemma collect_take intLimit vals c (R : gset Z) :
  0 < intLimit → Int.in_range intLimit → 0 <= c <= intLimit →
  collect intLimit vals c R
  = (Z.min intLimit (c + Z.of_nat (length vals)),
     R ∪ list_to_set (take (Z.to_nat (intLimit - c)) vals)).
Proof.
  intros HL HLr. revert c R.
  induction vals as [|docID vals IH]; intros c R Hc; simpl.
  - rewrite take_nil. f_equal; [lia|set_solver].
  - rewrite (proj2 (Z.ltb_lt _ _) HL). simpl.
    destruct (c =? intLimit) eqn:Heq.
    + apply Z.eqb_eq in Heq. subst c. rewrite Z.sub_diag. simpl.
      f_equal; [lia|set_solver].
    + apply Z.eqb_neq in Heq. rewrite Int_wrap_id by int_lia.
      rewrite IH by lia.
      replace (Z.to_nat (intLimit - c))
        with (S (Z.to_nat (intLimit - (c + 1)))) by lia.
      simpl. f_equal; [lia|set_solver].
Qed.

Lemma scanValues_take src htPath intLimit values c (R : gset Z) :
  0 < intLimit → Int.in_range intLimit → 0 <= c <= intLimit →
  (∀ v : Z, is_Some (hashScan src htPath (StrHash (pretty v)) intLimit)) →
  final (scanValues src htPath intLimit values c R)
  = R ∪ list_to_set (take (Z.to_nat (intLimit - c))
                       (rangeMatches src htPath intLimit values)).
Proof.
  intros HL HLr Hc Htab. revert c R Hc.
  induction values as [|v values IH]; intros c R Hc.
  - simpl. rewrite take_nil. set_solver.
  - unfold rangeMatches. rewrite bind_cons.
    fold (rangeMatches src htPath intLimit values).
    cbn [scanValues]. unfold probe.
    destruct (Htab v) as [[num vals] ->].
    rewrite collect_take by done. rewrite emit_final, IH by lia.
    rewrite take_app, list_to_set_app_L.
    replace (Z.to_nat
               (intLimit - Z.min intLimit (c + Z.of_nat (length vals))))
      with (Z.to_nat (intLimit - c) - length vals)%nat by lia.
    by rewrite (assoc_L (∪)).
Qed.

(** X11: under a positive limit [L], [IntRange] adds the first [L] IDs of
    the matches of the integers of the range, taken in the order of the
    scan; so with a limit the direction of the range decides which matches
    are returned. *)
Theorem IntRange_limit_first_matches (intFrom : JSON)
    (expr : gmap string JSON) (src : Col) (R : gset Z)
    (vecPath : list string) (L from to : Z) :
  rangeArgs intFrom expr = inr (vecPath, L, from, to) → 0 < L →
  Join vecPath "," ∈ indexPaths src →
  (∀ v : Z, is_Some (hashScan src (Join vecPath ",") (StrHash (pretty v)) L)) →
  (from < to → to < Int.max_int) → (to <= from → Int.min_int < to) →
  ∃ fuel r,
    IntRange fuel intFrom expr src R = Some r
    ∧ outcome r = OK
    ∧ final r
      = R ∪ list_to_set
              (take (Z.to_nat L)
                 (rangeMatches src (Join vecPath ",") L
                    (rangeValues from to))).
Proof.
  intros Hargs HL Hidx Htab Hfwd Hbwd.
  destruct (rangeArgs_range _ _ _ _ _ _ Hargs) as (HLr & _ & _).
  eexists (S (Z.to_nat (Z.abs (to - from) + 1))), _.
  split; [apply (IntRange_values _ _ _ _ _ _ _ _ _ Hargs Hidx Hfwd Hbwd); lia|].
  rewrite emit_outcome, emit_final.
  split; [by apply scanValues_probed|].
  rewrite scanValues_take by (done || lia). by rewrite Z.sub_0_r.
Qed.

(** X12: without a limit ([limit] absent, zero or negative) [IntRange]
    adds every match of every integer of the range. *)
Theorem IntRange_unlimited_all_matches (intFrom : JSON)
    (expr : gmap string JSON) (src : Col) (R : gset Z)
    (vecPath : list string) (L from to : Z) :
  rangeArgs intFrom expr = inr (vecPath, L, from, to) → L <= 0 →
  Join vecPath "," ∈ indexPaths src →
  (∀ v : Z, is_Some (hashScan src (Join vecPath ",") (StrHash (pretty v)) L)) →
  (from < to → to < Int.max_int) → (to <= from → Int.min_int < to) →
  ∃ fuel r,
    IntRange fuel intFrom expr src R = Some r
    ∧ outcome r = OK
    ∧ final r
      = R ∪ list_to_set
              (rangeMatches src (Join vecPath ",") L (rangeValues from to)).
Proof.
  intros Hargs HL Hidx Htab Hfwd Hbwd.
  eexists (S (Z.to_nat (Z.abs (to - from) + 1))), _.
  split; [apply (IntRange_values _ _ _ _ _ _ _ _ _ Hargs Hidx Hfwd Hbwd); lia|].
  rewrite emit_outcome, emit_final.
  split; [by apply scanValues_probed|]. by apply scanValues_unlimited.
Qed.

Lemma forwardScan_getEvents fuel src htPath intLimit v to c R r :
  forwardScan fuel src htPath intLimit v to c R = Some r →
  Forall (λ e, getEvent e = true) (trace r).
Proof.
  revert v c R r. induction fuel as [|fuel IH]; intros v c R r; simpl; [done|].
  destruct (v <=? to); [|intros [= <-]; constructor].
  unfold probe. destruct (hashScan _ _ _ _) as [[num vals]|];
    [|intros [= <-]; constructor].
  destruct (collect _ _ _ _) as [c' R'].
  destruct (forwardScan fuel _ _ _ _ _ _ _) as [r0|] eqn:Hr0; [|done].
  intros [= <-]. simpl. constructor; [done|]. by eapply IH.
Qed.

Lemma backwardScan_getEvents fuel src htPath intLimit v to c R r :
  backwardScan fuel src htPath intLimit v to c R = Some r →
  Forall (λ e, getEvent e = true) (trace r).
Proof.
  revert v c R r. induction fuel as [|fuel IH]; intros v c R r; simpl; [done|].
  destruct (to <=? v); [|intros [= <-]; constructor].
  unfold probe. destruct (hashScan _ _ _ _) as [[num vals]|];
    [|intros [= <-]; constructor].
  destruct (collect _ _ _ _) as [c' R'].
  destruct (backwardScan fuel _ _ _ _ _ _ _) as [r0|] eqn:Hr0; [|done].
  intros [= <-]. simpl. constructor; [done|]. by eapply IH.
Qed.

Lemma tooWide_span from to :
  Int.in_range from → Int.in_range to →
  Z.abs (to - from) <= Int.max_int →
  tooWide from to = true ↔ 1000 < Z.abs (to - from).
Proof.
  intros Hf Ht Hspan. unfold tooWide.
  rewrite !Int_wrap_id by int_lia.
  rewrite orb_true_iff, !andb_true_iff, !Z.ltb_lt. lia.
Qed.

(** X13: [IntRange] logs its advisory exactly when the two bounds are more
    than 1000 apart, provided the difference of the bounds fits a 64-bit
    integer; it does so before the index check, also for a path that is not
    indexed. *)
Theorem IntRange_advisory fuel (intFrom : JSON) (expr : gmap string JSON)
    (src : Col) (R : gset Z) (vecPath : list string) (L from to : Z)
    (r : Run) :
  rangeArgs intFrom expr = inr (vecPath, L, from, to) →
  Z.abs (to - from) <= Int.max_int →
  IntRange fuel intFrom expr src R = Some r →
  EvCritNoRepeat ∈ trace r ↔ 1000 < Z.abs (to - from).
Proof.
  intros Hargs Hspan Hr.
  destruct (rangeArgs_range _ _ _ _ _ _ Hargs) as (_ & Hf & Ht).
  rewrite <- (tooWide_span from to Hf Ht Hspan).
  assert (Hadv : EvCritNoRepeat
                 ∈ (if tooWide from to then [EvCritNoRepeat] else [])
                 ↔ tooWide from to = true).
  { destruct (tooWide from to); [|by rewrite elem_of_nil].
    split; [done|]. intros _. left. }
  unfold IntRange in Hr. rewrite Hargs in Hr. simpl in Hr.
  case_decide; [|by injection Hr as <-].
  assert (Hscan : ∀ r0, Forall (λ e, getEvent e = true) (trace r0) →
            r = emit (if tooWide from to then [EvCritNoRepeat] else []) r0 →
            EvCritNoRepeat ∈ trace r ↔ tooWide from to = true).
  { intros r0 Hget ->. simpl. rewrite elem_of_app, Hadv.
    split; [|by left]. intros [?|Hin]; [done|].
    rewrite Forall_forall in Hget. by apply Hget in Hin. }
  destruct (from <? to).
  - destruct (forwardScan _ _ _ _ _ _ _ _) as [r0|] eqn:Hr0; [|done].
    injection Hr as <-. eapply Hscan; [|done].
    by eapply forwardScan_getEvents.
  - destruct (backwardScan _ _ _ _ _ _ _ _) as [r0|] eqn:Hr0; [|done].
    injection Hr as <-. eapply Hscan; [|done].
    by eapply backwardScan_getEvents.
Qed.

End RangeResults.

(** In the sample collection, the range from 5 down to 1 with limit 1
    returns the first match of the backward scan. *)
Lemma IntRange_limit_first_matches_witness :
  let expr : gmap string JSON :=
    {[ "int-from" := Sample.num 5; "int-to" := Sample.num 1;
       "in" := JArray [JString "a"]; "limit" := Sample.num 1 ]} in
  ∃ fuel r,
    IntRange (ext:=Sample.externals) fuel (Sample.num 5) expr Sample.col ∅
    = Some r
    ∧ outcome r = OK
    ∧ final r
      = ∅ ∪ list_to_set
              (take (Z.to_nat 1)
                 (rangeMatches (ext:=Sample.externals) Sample.col
                    (Join ["a"] ",") 1 (rangeValues 5 1))).
Proof.
  intros expr.
  assert (Hargs : rangeArgs (ext:=Sample.externals) (Sample.num 5) expr
                  = inr (["a"], 1, 5, 1)) by (vm_compute; reflexivity).
  assert (Hidx : Join ["a"] "," ∈ indexPaths Sample.col)
    by (vm_compute; set_solver).
  assert (Hfwd : 5 < 1 → 1 < Int.max_int) by (intros _; reflexivity).
  assert (Hbwd : 1 <= 5 → Int.min_int < 1) by (intros _; reflexivity).
  exact (IntRange_limit_first_matches (ext:=Sample.externals) (Sample.num 5)
           expr Sample.col ∅ ["a"] 1 5 1 Hargs eq_refl Hidx
           (λ v, Sample_hashScan (Sample.strHash (pretty v)) 1) Hfwd Hbwd).
Defined.

(** In the sample collection, the range from 1 to 5 without limit returns
    every match. *)
Lemma IntRange_unlimited_all_matches_witness :
  let expr : gmap string JSON :=
    {[ "int-from" := Sample.num 1; "int-to" := Sample.num 5;
       "in" := JArray [JString "a"] ]} in
  ∃ fuel r,
    IntRange (ext:=Sample.externals) fuel (Sample.num 1) expr Sample.col ∅
    = Some r
    ∧ outcome r = OK
    ∧ final r
      = ∅ ∪ list_to_set
              (rangeMatches (ext:=Sample.externals) Sample.col
                 (Join ["a"] ",") 0 (rangeValues 1 5)).
Proof.
  intros expr.
  assert (Hargs : rangeArgs (ext:=Sample.externals) (Sample.num 1) expr
                  = inr (["a"], 0, 1, 5)) by (vm_compute; reflexivity).
  assert (Hidx : Join ["a"] "," ∈ indexPaths Sample.col)
    by (vm_compute; set_solver).
  assert (HL : 0 <= 0) by lia.
  assert (Hfwd : 1 < 5 → 5 < Int.max_int) by (intros _; reflexivity).
  assert (Hbwd : 5 <= 1 → Int.min_int < 5) by (intros _; reflexivity).
  exact (IntRange_unlimited_all_matches (ext:=Sample.externals)
           (Sample.num 1) expr Sample.col ∅ ["a"] 0 1 5 Hargs HL Hidx
           (λ v, Sample_hashScan (Sample.strHash (pretty v)) 0) Hfwd Hbwd).
Defined.

(** In the sample collection, the range from 1 to 2000 on the path [b],
    which is not indexed, logs the advisory. *)
Lemma IntRange_advisory_witness :
  let expr : gmap string JSON :=
    {[ "int-from" := Sample.num 1; "int-to" := Sample.num 2000;
       "in" := JArray [JString "b"] ]} in
  ∃ r, IntRange (ext:=Sample.externals) 0 (Sample.num 1) expr Sample.col ∅
       = Some r
       ∧ (EvCritNoRepeat ∈ trace r ↔ 1000 < Z.abs (2000 - 1)).
Proof.
  intros expr.
  assert (Hargs : rangeArgs (ext:=Sample.externals) (Sample.num 1) expr
                  = inr (["b"], 0, 1, 2000)) by (vm_compute; reflexivity).
  assert (Hspan : Z.abs (2000 - 1) <= Int.max_int)
    by (vm_compute; discriminate).
  destruct (IntRange (ext:=Sample.externals) 0 (Sample.num 1) expr
              Sample.col ∅) as [r|] eqn:Hr; [|by vm_compute in Hr].
  exists r. split; [done|].
  exact (IntRange_advisory (ext:=Sample.externals) 0 (Sample.num 1) expr
           Sample.col ∅ ["b"] 0 1 2000 r Hargs Hspan Hr).
Defined.

(** ** The schema lock *)

Section SchemaLock.
Context {ext : Externals}.

Local Abbreviation unlocked := (Forall (λ e, lockEvent e = false)).

Lemma Lookup_unlocked lookupValue expr src R :
  unlocked (trace (Lookup lookupValue expr src R)).
Proof.
  unfold Lookup. destruct (lookupArgs expr) as [e|[vecPath intLimit]];
    [constructor|].
  simpl. case_decide; [|constructor]. destruct (_ =? 0); [constructor|].
  destruct (table _ _ _); [|constructor].
  rewrite filterMatches_exact. simpl. constructor; [done|].
  apply Forall_fmap, Forall_true. done.
Qed.

Lemma scanSlices_unlocked ht part jointPath intLimit partDiv slices c R :
  unlocked (reads (scanSlices ht part jointPath intLimit partDiv slices c R)).
Proof.
  revert c R. induction slices as [|i slices IH]; intros c R; simpl;
    [constructor|].
  destruct (stop _); simpl; [repeat constructor|].
  constructor; [done|apply IH].
Qed.

Lemma scanParts_unlocked src jointPath intLimit partDiv parts c R :
  unlocked (trace (scanParts src jointPath intLimit partDiv parts c R)).
Proof.
  revert c R. induction parts as [|p parts IH]; intros c R; simpl;
    [constructor|].
  destruct (table _ _ _); [|constructor].
  destruct (stop _) eqn:Hs; simpl; [apply scanSlices_unlocked|].
  apply Forall_app. split; [apply scanSlices_unlocked|apply IH].
Qed.

Lemma PathExistence_unlocked hasPath expr src R :
  unlocked (trace (PathExistence hasPath expr src R)).
Proof.
  unfold PathExistence.
  destruct (pathArgs hasPath expr) as [e|[vecPath intLimit]]; [constructor|].
  simpl. case_decide; [|constructor]. destruct (_ =? 0); [constructor|].
  apply scanParts_unlocked.
Qed.

Lemma getEvents_unlocked t :
  Forall (λ e, getEvent e = true) t → unlocked t.
Proof. intros Hget. eapply Forall_impl; [exact Hget|]. by intros []. Qed.

Lemma IntRange_unlocked fuel intFrom expr src R r :
  IntRange fuel intFrom expr src R = Some r → unlocked (trace r).
Proof.
  unfold IntRange.
  destruct (rangeArgs intFrom expr) as [e|[[[vecPath intLimit] from] to]];
    [intros [= <-]; constructor|].
  simpl.
  assert (Hadv : unlocked (if tooWide from to then [EvCritNoRepeat] else []))
    by (destruct (tooWide from to); repeat constructor).
  case_decide; [|by intros [= <-]].
  destruct (from <? to).
  - destruct (forwardScan _ _ _ _ _ _ _ _) as [r0|] eqn:Hr0; [|done].
    intros [= <-]. simpl. apply Forall_app. split; [done|].
    by eapply getEvents_unlocked, forwardScan_getEvents.
  - destruct (backwardScan _ _ _ _ _ _ _ _) as [r0|] eqn:Hr0; [|done].
    intros [= <-]. simpl. apply Forall_app. split; [done|].
    by eapply getEvents_unlocked, backwardScan_getEvents.
Qed.

Section Loops.
Variable ev : JSON -> Col -> gset Z -> option Run.
Hypothesis ev_unlocked :
  ∀ q src R r, ev q src R = Some r → unlocked (trace r).

Lemma EvalUnion_unlocked l src R r :
  EvalUnion_ ev l src R = Some r → unlocked (trace r).
Proof.
  revert R r. induction l as [|q l IH]; intros R r; simpl.
  - intros [= <-]. constructor.
  - destruct (ev q src R) as [rq|] eqn:Hq; simpl; [|done].
    apply ev_unlocked in Hq.
    destruct (outcome rq); try (by intros [= <-]).
    destruct (EvalUnion_ ev l src (final rq)) as [r0|] eqn:Hl; [|done].
    intros [= <-]. simpl. apply Forall_app. split; [done|]. by eapply IH.
Qed.

Lemma intersectLoop_unlocked l src first R r :
  intersectLoop ev l src first R = Some r → unlocked (trace r).
Proof.
  revert first R r. induction l as [|q l IH]; intros first R r; simpl.
  - intros [= <-]. constructor.
  - destruct (ev q src ∅) as [rq|] eqn:Hq; simpl; [|done].
    apply ev_unlocked in Hq.
    destruct (outcome rq); try (by intros [= <-]).
    destruct first.
    + destruct (intersectLoop ev l src false _) as [r0|] eqn:Hl; [|done].
      intros [= <-]. simpl. apply Forall_app. split; [done|]. by eapply IH.
    + destruct (intersectLoop ev l src false _) as [r0|] eqn:Hl; [|done].
      intros [= <-]. simpl. apply Forall_app. split; [done|]. by eapply IH.
Qed.

Lemma complementLoop_unlocked l src R r :
  complementLoop ev l src R = Some r → unlocked (trace r).
Proof.
  revert R r. induction l as [|q l IH]; intros R r; simpl.
  - intros [= <-]. constructor.
  - destruct (ev q src ∅) as [rq|] eqn:Hq; simpl; [|done].
    apply ev_unlocked in Hq.
    destruct (outcome rq); try (by intros [= <-]).
    destruct (complementLoop ev l src _) as [r0|] eqn:Hl; [|done].
    intros [= <-]. simpl. apply Forall_app. split; [done|]. by eapply IH.
Qed.

End Loops.

(** Nested evaluation never touches the schema lock. *)
Lemma subQuery_unlocked fuel q src R r :
  subQuery fuel q src R = Some r → unlocked (trace r).
Proof.
  revert q src R r. induction fuel as [|fuel IH]; intros q src R r; [done|].
  rewrite subQuery_S. destruct q as [| | |s|l|expr];
    try (intros [= <-]; constructor).
  - case_decide; [intros [= <-]; repeat constructor|].
    destruct (ParseInt s); intros [= <-]; constructor.
  - by apply EvalUnion_unlocked.
  - destruct (expr !! "eq"); [intros [= <-]; apply Lookup_unlocked|].
    destruct (expr !! "has"); [intros [= <-]; apply PathExistence_unlocked|].
    destruct (expr !! "n") as [subExprs|].
    { unfold Intersect, Intersect_. destruct subExprs;
        try (intros [= <-]; constructor).
      by apply intersectLoop_unlocked. }
    destruct (expr !! "c") as [subExprs|].
    { unfold Complement, Complement_. destruct subExprs;
        try (intros [= <-]; constructor).
      by apply complementLoop_unlocked. }
    destruct (expr !! "int-from"); [apply IntRange_unlocked|].
    destruct (expr !! "int from"); [apply IntRange_unlocked|].
    intros [= <-]. constructor.
Qed.

(** X14: the entry point takes the schema lock once, before anything else,
    and releases it last, whatever the outcome of the query (nil, an error
    or a panic); between the two the evaluation, however deeply nested,
    never takes or releases the lock again.  Outcome and result set are
    those of the evaluation itself. *)
Theorem schema_lock_discipline fuel (q : JSON) (src : Col) (R : gset Z)
    (r : Run) :
  EvalQuery fuel q src R = Some r →
  ∃ r0, subQuery fuel q src R = Some r0
        ∧ outcome r = outcome r0
        ∧ final r = final r0
        ∧ trace r = EvSchemaRLock :: trace r0 ++ [EvSchemaRUnlock]
        ∧ Forall (λ e, lockEvent e = false) (trace r0).
Proof.
  intros Hr.
  assert (Heq : EvalQuery fuel q src R
                = withSchemaLock true <$> subQuery fuel q src R).
  { destruct fuel as [|fuel]; [done|]. unfold EvalQuery, subQuery. simpl.
    by rewrite withSchemaLock_false. }
  rewrite Heq in Hr.
  destruct (subQuery fuel q src R) as [r0|] eqn:H0; [|done].
  injection Hr as <-. exists r0. repeat split; try done.
  by eapply subQuery_unlocked.
Qed.

End SchemaLock.

(** In the sample collection, the failing query [["1", "x"]] is bracketed
    by the lock and its release. *)
Lemma schema_lock_discipline_witness :
  ∃ r r0,
    EvalQuery (ext:=Sample.externals) 2 (JArray [JString "1"; JString "x"])
      Sample.col ∅ = Some r
    ∧ subQuery (ext:=Sample.externals) 2 (JArray [JString "1"; JString "x"])
        Sample.col ∅ = Some r0
    ∧ outcome r = outcome r0
    ∧ final r = final r0
    ∧ trace r = EvSchemaRLock :: trace r0 ++ [EvSchemaRUnlock]
    ∧ Forall (λ e, lockEvent e = false) (trace r0).
Proof.
  destruct (EvalQuery (ext:=Sample.externals) 2
              (JArray [JString "1"; JString "x"]) Sample.col ∅)
    as [r|] eqn:Hr; [|by vm_compute in Hr].
  destruct (schema_lock_discipline (ext:=Sample.externals) 2 _ _ _ r Hr)
    as (r0 & Hr0).
  by exists r, r0.
Defined.

(** ** The evaluator returns *)

Section Returns.
Context {ext : Externals}.

Lemma IntRange_returns intFrom expr src :
  rangeEnds intFrom expr = true →
  ∃ n, ∀ fuel, (n ≤ fuel)%nat →
       ∀ R, is_Some (IntRange fuel intFrom expr src R).
Proof.
  unfold rangeEnds. intros Hends.
  destruct (rangeArgs intFrom expr) as [e|[[[vecPath intLimit] from] to]]
    eqn:Hargs.
  - exists 0%nat. intros fuel _ R. unfold IntRange. rewrite Hargs. eauto.
  - destruct (decide (Join vecPath "," ∈ indexPaths src)) as [Hidx|Hidx].
    + exists (S (Z.to_nat (Z.abs (to - from) + 1))). intros fuel Hfuel R.
      rewrite (IntRange_values fuel _ _ _ _ _ _ _ _ Hargs Hidx); [eauto| | |lia].
      * intros Hlt. rewrite (proj2 (Z.ltb_lt _ _) Hlt) in Hends.
        by apply Z.ltb_lt.
      * intros Hge. rewrite (proj2 (Z.ltb_ge _ _) Hge) in Hends.
        by apply Z.ltb_lt.
    + exists 0%nat. intros fuel _ R. unfold IntRange. rewrite Hargs.
      cbv beta iota zeta. rewrite decide_False by done. eauto.
Qed.

Section Loops.
Variable ev : JSON -> Col -> gset Z -> option Run.

Lemma EvalUnion_returns l src :
  (∀ q, q ∈ l → ∀ R, is_Some (ev q src R)) →
  ∀ R, is_Some (EvalUnion_ ev l src R).
Proof.
  induction l as [|q l IH]; intros Hev R; simpl; [eauto|].
  destruct (Hev q ltac:(left) R) as [rq ->]. simpl.
  destruct (outcome rq); eauto.
  destruct (IH (λ q Hq, Hev q (list_elem_of_further _ _ _ Hq)) (final rq))
    as [r ->].
  simpl. eauto.
Qed.

Lemma intersectLoop_returns l src :
  (∀ q, q ∈ l → ∀ R, is_Some (ev q src R)) →
  ∀ first R, is_Some (intersectLoop ev l src first R).
Proof.
  induction l as [|q l IH]; intros Hev first R; simpl; [eauto|].
  destruct (Hev q ltac:(left) ∅) as [rq ->]. simpl.
  destruct (outcome rq); eauto.
  pose proof (IH (λ q Hq, Hev q (list_elem_of_further _ _ _ Hq))) as Hl.
  destruct first.
  - destruct (Hl false (final rq)) as [r ->]. simpl. eauto.
  - destruct (Hl false (filter (λ k, k ∈ R) (final rq))) as [r ->].
    simpl. eauto.
Qed.

Lemma complementLoop_returns l src :
  (∀ q, q ∈ l → ∀ R, is_Some (ev q src R)) →
  ∀ R, is_Some (complementLoop ev l src R).
Proof.
  induction l as [|q l IH]; intros Hev R; simpl; [eauto|].
  destruct (Hev q ltac:(left) ∅) as [rq ->]. simpl.
  destruct (outcome rq); eauto.
  destruct (IH (λ q Hq, Hev q (list_elem_of_further _ _ _ Hq))
              (filter (λ k, k ∉ R) (final rq)
               ∪ filter (λ k, k ∉ final rq) R)) as [r ->].
  simpl. eauto.
Qed.

End Loops.

(** One amount of fuel serves all the sub-queries of a vector. *)
Lemma returns_uniform (l : list JSON) src :
  Forall (λ q, ∃ n, ∀ fuel, (n ≤ fuel)%nat →
                    ∀ R, is_Some (subQuery fuel q src R)) l →
  ∃ n, ∀ fuel, (n ≤ fuel)%nat →
       ∀ q, q ∈ l → ∀ R, is_Some (subQuery fuel q src R).
Proof.
  induction 1 as [|q l [n Hq] _ [m Hl]].
  - exists 0%nat. intros fuel _ q Hq. by apply elem_of_nil in Hq.
  - exists (n `max` m)%nat. intros fuel Hfuel q' Hq' R.
    apply elem_of_cons in Hq' as [->|Hq'].
    + apply Hq. lia.
    + apply Hl; [lia|done].
Qed.

Lemma subQuery_returns depth (q : JSON) src :
  rangesEnd depth q = true →
  ∃ n, ∀ fuel, (n ≤ fuel)%nat → ∀ R, is_Some (subQuery fuel q src R).
Proof.
  revert q. induction depth as [|depth IH]; intros q Hq; [done|].
  assert (Hvec : ∀ l, forallb (rangesEnd depth) l = true →
            ∃ n, ∀ fuel, (n ≤ fuel)%nat →
                 ∀ q, q ∈ l → ∀ R, is_Some (subQuery fuel q src R)).
  { intros l Hl. apply returns_uniform. apply Forall_forall.
    intros q' Hq'. apply IH. rewrite forallb_forall in Hl.
    apply Hl. by apply list_elem_of_In. }
  simpl in Hq. destruct q as [| | |s|l|expr].
  - exists 1%nat. intros [|fuel] Hfuel R; [lia|]. rewrite subQuery_S. eauto.
  - exists 1%nat. intros [|fuel] Hfuel R; [lia|]. rewrite subQuery_S. eauto.
  - exists 1%nat. intros [|fuel] Hfuel R; [lia|]. rewrite subQuery_S. eauto.
  - exists 1%nat. intros [|fuel] Hfuel R; [lia|]. rewrite subQuery_S.
    case_decide; [eauto|]. destruct (ParseInt s); eauto.
  - destruct (Hvec l Hq) as [n Hn]. exists (S n).
    intros [|fuel] Hfuel R; [lia|]. rewrite subQuery_S.
    apply EvalUnion_returns. intros q' Hq'. apply Hn; [lia|done].
  - destruct (expr !! "eq") as [lookupValue|] eqn:Heq.
    { exists 1%nat. intros [|fuel] Hfuel R; [lia|].
      rewrite subQuery_S, Heq. eauto. }
    destruct (expr !! "has") as [hasPath|] eqn:Hhas.
    { exists 1%nat. intros [|fuel] Hfuel R; [lia|].
      rewrite subQuery_S, Heq, Hhas. eauto. }
    destruct (expr !! "n") as [subExprs|] eqn:Hn.
    { destruct subExprs as [| | | |l|];
        try solve [exists 1%nat; intros [|fuel] Hfuel R; [lia|];
                   rewrite subQuery_S, Heq, Hhas, Hn; simpl; eauto].
      destruct (Hvec l Hq) as [n Hl]. exists (S n).
      intros [|fuel] Hfuel R; [lia|]. rewrite subQuery_S, Heq, Hhas, Hn.
      apply intersectLoop_returns. intros q' Hq'. apply Hl; [lia|done]. }
    destruct (expr !! "c") as [subExprs|] eqn:Hc.
    { destruct subExprs as [| | | |l|];
        try solve [exists 1%nat; intros [|fuel] Hfuel R; [lia|];
                   rewrite subQuery_S, Heq, Hhas, Hn, Hc; simpl; eauto].
      destruct (Hvec l Hq) as [n Hl]. exists (S n).
      intros [|fuel] Hfuel R; [lia|]. rewrite subQuery_S, Heq, Hhas, Hn, Hc.
      apply complementLoop_returns. intros q' Hq'. apply Hl; [lia|done]. }
    destruct (expr !! "int-from") as [intFrom|] eqn:Hfrom.
    { destruct (IntRange_returns intFrom expr src Hq) as [n Hr].
      exists (S n). intros [|fuel] Hfuel R; [lia|].
      rewrite subQuery_S, Heq, Hhas, Hn, Hc, Hfrom. apply Hr. lia. }
    destruct (expr !! "int from") as [intFrom|] eqn:Hfrom'.
    { destruct (IntRange_returns intFrom expr src Hq) as [n Hr].
      exists (S n). intros [|fuel] Hfuel R; [lia|].
      rewrite subQuery_S, Heq, Hhas, Hn, Hc, Hfrom, Hfrom'. apply Hr. lia. }
    exists 1%nat. intros [|fuel] Hfuel R; [lia|].
    rewrite subQuery_S, Heq, Hhas, Hn, Hc, Hfrom, Hfrom'. eauto.
Qed.

(** X15: the evaluation of a query returns, with nil, an error or a panic,
    on every collection and every running result set, when the scan loop of
    each range clause in it ends, that is, when no forward range has the
    maximum integer and no backward range has the minimum integer as its
    bound [to]. *)
Theorem evalQuery_returns depth (q : JSON) (src : Col) :
  rangesEnd depth q = true →
  ∃ n, ∀ fuel, (n ≤ fuel)%nat →
       ∀ R, is_Some (EvalQuery fuel q src R)
            ∧ is_Some (subQuery fuel q src R).
Proof.
  intros Hq. destruct (subQuery_returns depth q src Hq) as [n Hn].
  exists (S n). intros [|fuel] Hfuel R; [lia|].
  destruct (Hn (S fuel) ltac:(lia) R) as [r Hr]. split; [|eauto].
  assert (Heq : EvalQuery (S fuel) q src R
                = withSchemaLock true <$> subQuery (S fuel) q src R).
  { unfold EvalQuery, subQuery. simpl. by rewrite withSchemaLock_false. }
  rewrite Heq, Hr. simpl. eauto.
Qed.

End Returns.

(** The query [{"c": ["all", {"int-from": 1, "int-to": 5, "in": ["a"]}]}]
    returns on the sample collection. *)
Lemma evalQuery_returns_witness :
  let q := JObject {[ "c" := JArray [JString "all";
             JObject {[ "int-from" := Sample.num 1; "int-to" := Sample.num 5;
                        "in" := JArray [JString "a"] ]}] ]} in
  ∃ n, ∀ fuel, (n ≤ fuel)%nat →
       ∀ R, is_Some (EvalQuery (ext:=Sample.externals) fuel q Sample.col R)
            ∧ is_Some (subQuery (ext:=Sample.externals) fuel q Sample.col R).
Proof.
  intros q.
  apply (evalQuery_returns (ext:=Sample.externals) 3 q Sample.col).
  vm_compute. reflexivity.
Defined.
